(** * WordChain Arena: the in-memory game store (server/storage.ts)

    A shallow embedding of [MemStorage] and the properties of its game
    state machine.

    Conventions of the embedding.
    - The four [Map]s of the class are finite maps; a record is stored by
      value under its key.  The source stores references and mutates them
      in place ([game.round += 1]) before writing them back with [set]
      under the record's own id: an in-place update is an insert under the
      key the record was read from, followed by the insert of the [set].
      The two coincide whenever a record sits under its own id, which
      [wf_store] states and every reachable store satisfies.
    - JavaScript numbers used as identifiers, counters, scores, rounds and
      millisecond timestamps are integers ([Z]).
    - Strings are sequences of ASCII characters; [toUpperCase] maps a-z to
      A-Z and [trim] strips the ASCII white space and line terminators of
      ECMAScript.  Properties that rest on this being all that the two
      functions do are stated for words of ASCII characters, [asciiOnly].
    - A call reads the clock once: [now] is the value of every
      [Date.now()] and [new Date()] of that call.
    - Every [Math.random()] is a separate rational draw, passed to the
      call that consumes it; the draws the environment really provides lie
      in the interval [0, 1), see [unit_draw]. *)

From Stdlib Require Import ZArith QArith Qround String Ascii List Bool.
From stdpp Require Import base option list gmap strings pretty.

Local Open Scope Z_scope.

(** ** Strings *)

Module JsString.

Local Open Scope char_scope.

Definition isLower (c : ascii) : bool :=
  ((97 <=? nat_of_ascii c) && (nat_of_ascii c <=? 122))%nat.

Definition upperChar (c : ascii) : ascii :=
  if isLower c then ascii_of_nat (nat_of_ascii c - 32) else c.

(** [s.toUpperCase()] *)
Fixpoint toUpperCase (s : string) : string :=
  match s with
  | EmptyString => EmptyString
  | String c r => String (upperChar c) (toUpperCase r)
  end.

(** White space and line terminators removed by [trim]: TAB, LF, VT, FF,
    CR and SPACE. *)
Definition isWhiteSpace (c : ascii) : bool :=
  ((9 <=? nat_of_ascii c) && (nat_of_ascii c <=? 13)
   || (nat_of_ascii c =? 32))%nat.

Fixpoint trimStart (s : string) : string :=
  match s with
  | EmptyString => EmptyString
  | String c r => if isWhiteSpace c then trimStart r else s
  end.

Fixpoint trimEnd (s : string) : string :=
  match s with
  | EmptyString => EmptyString
  | String c r =>
      match trimEnd r with
      | EmptyString => if isWhiteSpace c then EmptyString else String c EmptyString
      | r' => String c r'
      end
  end.

(** [s.trim()] *)
Definition trim (s : string) : string := trimEnd (trimStart s).

(** [s.charAt(0)]: the first character as a string, or the empty string. *)
Definition charAt0 (s : string) : string :=
  match s with
  | EmptyString => EmptyString
  | String c _ => String c EmptyString
  end.

(** [s.slice(-1)]: the last character as a string, or the empty string. *)
Fixpoint sliceLast (s : string) : string :=
  match s with
  | EmptyString => EmptyString
  | String c EmptyString => String c EmptyString
  | String _ r => sliceLast r
  end.

(** Truthiness of a string: the empty string is falsy. *)
Definition truthy (s : string) : bool :=
  match s with EmptyString => false | _ => true end.

End JsString.

(** ** Data model (shared/schema.ts, as used by the store) *)

Inductive GameStatus := waiting | playing | finished.

Global Instance GameStatus_eq_dec : EqDecision GameStatus.
Proof. solve_decision. Defined.

Module User.
Record t := mk { id : Z; username : string }.
End User.

Module Game.
Record t := mk {
  id : string;
  hostId : Z;
  status : GameStatus;
  round : Z;
  currentWord : string;
  roundEndsAt : option Z;
  isBotGame : bool
}.
End Game.

Module Player.
Record t := mk {
  id : Z;
  gameId : string;
  userId : Z;
  score : Z;
  hasSubmitted : bool
}.

(** [player.score += 1] *)
Definition scored (p : t) : t :=
  mk (id p) (gameId p) (userId p) (score p + 1) (hasSubmitted p).
End Player.

Module GameState.
(** [{ ...game, players: playersWithNames }] *)
Record t := mk { game : Game.t; players : list (Player.t * string) }.
End GameState.

(** The fields of [MemStorage]. *)
Record Store := mkStore {
  users : gmap Z User.t;
  games : gmap string Game.t;
  players : gmap Z Player.t;
  gamePlayers : gmap string (list Z);
  userIdCounter : Z;
  playerIdCounter : Z
}.

(** [new MemStorage()] *)
Definition newStore : Store := mkStore ∅ ∅ ∅ ∅ 1 1.

Definition set_users (st : Store) (m : gmap Z User.t) (c : Z) : Store :=
  mkStore m (games st) (players st) (gamePlayers st) c (playerIdCounter st).

Definition set_games (st : Store) (m : gmap string Game.t) : Store :=
  mkStore (users st) m (players st) (gamePlayers st)
          (userIdCounter st) (playerIdCounter st).

Definition set_players (st : Store) (m : gmap Z Player.t) : Store :=
  mkStore (users st) (games st) m (gamePlayers st)
          (userIdCounter st) (playerIdCounter st).

Definition set_gamePlayers (st : Store) (m : gmap string (list Z)) : Store :=
  mkStore (users st) (games st) (players st) m
          (userIdCounter st) (playerIdCounter st).

(** A call either returns or throws [new Error(message)]. *)
Inductive outcome (A : Type) :=
| Return (a : A)
| Throw (message : string).
Arguments Return {A} a.
Arguments Throw {A} message.

(** ** Environment: random draws *)

(** The range of [Math.random()]. *)
Definition unit_draw (u : Q) : Prop := (0 <= u)%Q ∧ (u < 1)%Q.

(** [Math.floor(Math.random() * n)] for the draw [u]. *)
Definition randomIndex (u : Q) (n : nat) : nat :=
  Z.to_nat (Qfloor (u * inject_Z (Z.of_nat n))).

Definition startWords : list string :=
  ["APPLE"; "TIGER"; "RIVER"; "CLOUD"; "MUSIC"; "GHOST"; "LEMON"; "PIZZA"]%string.

Definition backupWords : list string :=
  ["STORM"; "BREAD"; "NIGHT"; "DREAM"; "FLAME"]%string.

(** [words[Math.floor(Math.random() * words.length)]]; an index outside the
    array, which no draw of [0, 1) produces, reads as the empty string. *)
Definition pickWord (words : list string) (u : Q) : string :=
  nth (randomIndex u (length words)) words EmptyString.

(** The double nearest to the literal [0.3]. *)
Definition botMissThreshold : Q := 5404319552844595 # 18014398509481984.

(** ** Operations of [MemStorage] *)

(** [createUser(insertUser)] *)
Definition createUser (st : Store) (username : string) : User.t * Store :=
  let id := userIdCounter st in
  let user := User.mk id username in
  (user, set_users st (<[id := user]> (users st)) (id + 1)).

(** [getUser(id)] *)
Definition getUser (st : Store) (id : Z) : option User.t := users st !! id.

(** [playerIds.find(pid => this.players.get(pid)?.userId === userId)],
    returned with the record [this.players.get(pid)] it was matched on. *)
Fixpoint findPlayer (ps : gmap Z Player.t) (userId : Z) (playerIds : list Z)
  : option (Z * Player.t) :=
  match playerIds with
  | [] => None
  | pid :: rest =>
      match ps !! pid with
      | Some p => if Player.userId p =? userId then Some (pid, p)
                  else findPlayer ps userId rest
      | None => findPlayer ps userId rest
      end
  end.

(** The player ids enrolled in a game: [this.gamePlayers.get(gameId) || []]. *)
Definition playerIdsOf (st : Store) (gameId : string) : list Z :=
  default [] (gamePlayers st !! gameId).

(** The tail of [joinGame]: create a player and enroll it. *)
Definition enroll (st : Store) (gameId : string) (userId : Z) : Player.t * Store :=
  let player := Player.mk (playerIdCounter st) gameId userId 0 false in
  (player,
   mkStore (users st) (games st)
           (<[Player.id player := player]> (players st))
           (<[gameId := playerIdsOf st gameId ++ [Player.id player]]> (gamePlayers st))
           (userIdCounter st) (playerIdCounter st + 1)).

(** [joinGame(gameId, userId)] *)
Definition joinGame (st : Store) (gameId : string) (userId : Z)
  : outcome Player.t * Store :=
  match games st !! gameId with
  | None => (Throw "Game not found", st)
  | Some game =>
      if negb (bool_decide (Game.status game = waiting))
      then (Throw "Game already started", st)
      else
        let playerIds := playerIdsOf st gameId in
        if (4 <=? length playerIds)%nat then (Throw "Game full", st)
        else
          match findPlayer (players st) userId playerIds with
          | Some (existing, p) =>
              (* [if (existing)]: the id 0 is falsy *)
              if negb (existing =? 0) then (Return p, st)
              else let '(player, st') := enroll st gameId userId in
                   (Return player, st')
          | None =>
              let '(player, st') := enroll st gameId userId in
              (Return player, st')
          end
  end.

(** [createGame(hostId, isBotGame)]; [id] is the random six-character code
    [Math.random().toString(36).substring(2, 8).toUpperCase()]. *)
Definition createGame (st : Store) (id : string) (hostId : Z) (isBotGame : bool)
  : outcome Game.t * Store :=
  let game := Game.mk id hostId waiting 0 "" None isBotGame in
  let st1 := mkStore (users st) (<[id := game]> (games st)) (players st)
                     (<[id := []]> (gamePlayers st))
                     (userIdCounter st) (playerIdCounter st) in
  match joinGame st1 id hostId with
  | (Throw m, st2) => (Throw m, st2)
  | (Return _, st2) =>
      if isBotGame then
        let botPlayer := Player.mk (playerIdCounter st2) id (-1) 0 false in
        let st3 := mkStore (users st2) (games st2)
                           (<[Player.id botPlayer := botPlayer]> (players st2))
                           (gamePlayers st2)
                           (userIdCounter st2) (playerIdCounter st2 + 1) in
        (* [this.gamePlayers.get(id)?.push(botPlayer.id)] *)
        let st4 := match gamePlayers st3 !! id with
                   | Some l => set_gamePlayers st3
                                 (<[id := l ++ [Player.id botPlayer]]> (gamePlayers st3))
                   | None => st3
                   end in
        (Return game, st4)
      else (Return game, st2)
  end.

(** [startGame(gameId)] at time [now] with the draw [u]. *)
Definition startGame (st : Store) (gameId : string) (now : Z) (u : Q)
  : outcome unit * Store :=
  match games st !! gameId with
  | None => (Throw "Game not found", st)
  | Some game =>
      let word := pickWord startWords u in
      let game' := Game.mk (Game.id game) (Game.hostId game) playing 1 word
                           (Some (now + 5000)) (Game.isBotGame game) in
      (Return tt, set_games st (<[gameId := game']> (games st)))
  end.

(** The record [game] after the body of [endRound(game, winningWord?)]. *)
Definition endRoundGame (game : Game.t) (winningWord : option string)
    (now : Z) (u : Q) : Game.t :=
  if 5 <=? Game.round game then
    Game.mk (Game.id game) (Game.hostId game) finished (Game.round game)
            (Game.currentWord game) None (Game.isBotGame game)
  else
    let word :=
      match winningWord with
      | Some w => if JsString.truthy w then w else pickWord backupWords u
      | None => pickWord backupWords u
      end in
    Game.mk (Game.id game) (Game.hostId game) (Game.status game)
            (Game.round game + 1) word (Some (now + 5000)) (Game.isBotGame game).

(** [endRound(game, winningWord?)], for the record [game] read under [key]:
    the record is updated in place, then stored under its id. *)
Definition endRound (st : Store) (key : string) (game : Game.t)
    (winningWord : option string) (now : Z) (u : Q) : Store :=
  let game' := endRoundGame game winningWord now u in
  set_games st (<[Game.id game' := game']> (<[key := game']> (games st))).

(** The letter a submission has to start with:
    [game.currentWord.slice(-1).toUpperCase()]. *)
Definition lastChar (game : Game.t) : string :=
  JsString.toUpperCase (JsString.sliceLast (Game.currentWord game)).

(** [word.trim().charAt(0).toUpperCase()] *)
Definition firstChar (word : string) : string :=
  JsString.toUpperCase (JsString.charAt0 (JsString.trim word)).

Module SubmitResult.
(** [{valid: boolean, message?: string}] *)
Record t := mk { valid : bool; message : option string }.
End SubmitResult.

(** [submitWord(gameId, userId, word)] *)
Definition submitWord (st : Store) (gameId : string) (userId : Z) (word : string)
    (now : Z) (u : Q) : SubmitResult.t * Store :=
  match games st !! gameId with
  | None => (SubmitResult.mk false (Some "Game not found"), st)
  | Some game =>
      if negb (bool_decide (Game.status game = playing))
      then (SubmitResult.mk false (Some "Round not active"), st)
      else if negb (String.eqb (firstChar word) (lastChar game))
      then (SubmitResult.mk false
              (Some ("Word must start with '" +:+ lastChar game +:+ "'")), st)
      else
        let playerIds := playerIdsOf st gameId in
        let st1 :=
          match findPlayer (players st) userId playerIds with
          | Some (pid, player) =>
              let player' := Player.scored player in
              set_players st
                (<[Player.id player' := player']> (<[pid := player']> (players st)))
          | None => st
          end in
        (SubmitResult.mk true None,
         endRound st1 gameId game (Some (JsString.toUpperCase word)) now u)
  end.

(** [processBotMove(gameId)]: [uBot] is the draw of the bot's decision,
    [u] the draw handed to the submission it makes. *)
Definition processBotMove (st : Store) (gameId : string) (now : Z) (uBot u : Q)
  : Store :=
  match games st !! gameId with
  | None => st
  | Some game =>
      if negb (bool_decide (Game.status game = playing)) || negb (Game.isBotGame game)
      then st
      else
        let timeLeft := match Game.roundEndsAt game with
                        | Some t => t - now
                        | None => 0
                        end in
        if (timeLeft <? 3000) && (1000 <? timeLeft) then
          if negb (Qle_bool uBot botMissThreshold) then
            let botWord := lastChar game +:+ "BOTWORD" in
            snd (submitWord st gameId (-1) botWord now u)
          else st
        else st
  end.

(** The display name of a player in [getGame]. *)
Definition usernameOf (st : Store) (p : Player.t) : string :=
  if Player.userId p =? -1 then "Alice (Bot)"
  else match users st !! Player.userId p with
       | Some u => User.username u
       | None => "Unknown"
       end.

(** [playerIds.map(pid => this.players.get(pid)!).filter(Boolean)] with the
    names added. *)
Definition playersWithNames (st : Store) (gameId : string)
  : list (Player.t * string) :=
  (λ p, (p, usernameOf st p)) <$> omap (λ pid, players st !! pid) (playerIdsOf st gameId).

(** The record read under [key], as the store now holds it. *)
Definition current (st : Store) (key : string) (game : Game.t) : Game.t :=
  default game (games st !! key).

(** [getGame(id)]: [uTimeout] is the draw of the round that times out,
    [uBot] and [u] are those of the bot hook. *)
Definition getGame (st : Store) (id : string) (now : Z) (uTimeout uBot u : Q)
  : option GameState.t * Store :=
  match games st !! id with
  | None => (None, st)
  | Some game =>
      let expired := match Game.roundEndsAt game with
                     | Some t => t <? now
                     | None => false
                     end in
      let st1 := if bool_decide (Game.status game = playing) && expired
                 then endRound st id game None now uTimeout
                 else st in
      let game1 := current st1 id game in
      let st2 := if bool_decide (Game.status game1 = playing) && Game.isBotGame game1
                 then processBotMove st1 id now uBot u
                 else st1 in
      let game2 := current st2 id game in
      (Some (GameState.mk game2 (playersWithNames st2 id)), st2)
  end.

(** ** Calls and reachable stores *)

(** A call of a public method of the store, with the clock reading and the
    random draws it consumes. *)
Inductive call :=
| CreateUser (username : string)
| GetUser (id : Z)
| CreateGame (id : string) (hostId : Z) (isBotGame : bool)
| GetGame (id : string) (now : Z) (uTimeout uBot u : Q)
| JoinGame (gameId : string) (userId : Z)
| StartGame (gameId : string) (now : Z) (u : Q)
| SubmitWord (gameId : string) (userId : Z) (word : string) (now : Z) (u : Q)
| ProcessBotMove (gameId : string) (now : Z) (uBot u : Q).

(** The store after a call. *)
Definition exec (st : Store) (c : call) : Store :=
  match c with
  | CreateUser username => snd (createUser st username)
  | GetUser _ => st
  | CreateGame id hostId isBotGame => snd (createGame st id hostId isBotGame)
  | GetGame id now uTimeout uBot u => snd (getGame st id now uTimeout uBot u)
  | JoinGame gameId userId => snd (joinGame st gameId userId)
  | StartGame gameId now u => snd (startGame st gameId now u)
  | SubmitWord gameId userId word now u => snd (submitWord st gameId userId word now u)
  | ProcessBotMove gameId now uBot u => processBotMove st gameId now uBot u
  end.

(** The draws of a call are draws of [Math.random()]. *)
Definition draws_ok (c : call) : Prop :=
  match c with
  | GetGame _ _ uTimeout uBot u => unit_draw uTimeout ∧ unit_draw uBot ∧ unit_draw u
  | StartGame _ _ u => unit_draw u
  | SubmitWord _ _ _ _ u => unit_draw u
  | ProcessBotMove _ _ uBot u => unit_draw uBot ∧ unit_draw u
  | _ => True
  end.

(** The stores a server can be in: a new store, then any calls. *)
Inductive reachable : Store → Prop :=
| reachable_new : reachable newStore
| reachable_call st c : reachable st → draws_ok c → reachable (exec st c).

(** The store after a sequence of calls. *)
Definition run (st : Store) (cs : list call) : Store := fold_left exec cs st.

(** ** Vocabulary of the properties *)

(** A user is enrolled in a game when one of the game's players is theirs. *)
Definition enrolled (st : Store) (gameId : string) (userId : Z) : Prop :=
  ∃ pid p, pid ∈ playerIdsOf st gameId ∧ players st !! pid = Some p
           ∧ Player.userId p = userId.

(** What every reachable store satisfies: records sit under their own ids,
    player ids are positive and below the counter, enrolled ids name stored
    players, at most four players are enrolled in a game, the word of a
    running round is not empty, and a round expiry is set exactly while a
    game is playing. *)
Record wf_store (st : Store) : Prop := {
  wf_game_id : ∀ k g, games st !! k = Some g → Game.id g = k;
  wf_player_id : ∀ k p, players st !! k = Some p →
                        Player.id p = k ∧ 0 < k < playerIdCounter st;
  wf_counter : 0 < playerIdCounter st;
  wf_enrolled : ∀ k l pid, gamePlayers st !! k = Some l → pid ∈ l →
                           is_Some (players st !! pid);
  wf_count : ∀ k, (length (playerIdsOf st k) ≤ 4)%nat;
  wf_word : ∀ k g, games st !! k = Some g → Game.status g = playing →
                   Game.currentWord g ≠ EmptyString;
  wf_expiry : ∀ k g, games st !! k = Some g →
                     (Game.roundEndsAt g ≠ None ↔ Game.status g = playing)
}.

(** The store of [createGame] once the game and its empty player list are
    set, before the host joins. *)
Definition createGameStore (st : Store) (id : string) (hostId : Z)
    (isBotGame : bool) : Store :=
  mkStore (users st)
          (<[id := Game.mk id hostId waiting 0 EmptyString None isBotGame]> (games st))
          (players st) (<[id := []]> (gamePlayers st))
          (userIdCounter st) (playerIdCounter st).

(** The record of a game once a round is won with a word that is not empty. *)
Definition wonRound (game : Game.t) (word : string) (now : Z) : Game.t :=
  if 5 <=? Game.round game then
    Game.mk (Game.id game) (Game.hostId game) finished (Game.round game)
            (Game.currentWord game) None (Game.isBotGame game)
  else
    Game.mk (Game.id game) (Game.hostId game) (Game.status game)
            (Game.round game + 1) word (Some (now + 5000)) (Game.isBotGame game).

(** The players of the store once the first player of [userId] enrolled in
    the game, if any, has scored. *)
Definition scoredPlayers (st : Store) (gameId : string) (userId : Z)
  : gmap Z Player.t :=
  match findPlayer (players st) userId (playerIdsOf st gameId) with
  | Some (pid, p) => <[pid := Player.scored p]> (players st)
  | None => players st
  end.

(** How a won round leaves the game: one round further with the winning
    word and a new expiry, or finished once the round counter is at 5. *)
Definition resolvedBy (game game' : Game.t) (word : string) (now : Z) : Prop :=
  (Game.round game < 5 →
     Game.round game' = Game.round game + 1
     ∧ Game.currentWord game' = word
     ∧ Game.status game' = playing
     ∧ Game.roundEndsAt game' = Some (now + 5000))
  ∧ (5 ≤ Game.round game →
     Game.status game' = finished
     ∧ Game.roundEndsAt game' = None
     ∧ Game.round game' = Game.round game
     ∧ Game.currentWord game' = Game.currentWord game).

(** At most four players are enrolled in every game. *)
Definition atMostFour (st : Store) : Prop :=
  ∀ gameId, (length (playerIdsOf st gameId) ≤ 4)%nat.

(** A round expiry is set exactly while the game is playing. *)
Definition expiryMatchesStatus (st : Store) : Prop :=
  ∀ k g, games st !! k = Some g →
         (Game.roundEndsAt g ≠ None ↔ Game.status g = playing).

(** The order waiting, playing, finished. *)
Definition rank (s : GameStatus) : Z :=
  match s with waiting => 0 | playing => 1 | finished => 2 end.

(** The calls that set the status of the game [gameId] anew: starting it,
    and creating a game whose random code is [gameId]. *)
Definition restarts (gameId : string) (c : call) : Prop :=
  match c with
  | StartGame k _ _ => k = gameId
  | CreateGame k _ _ => k = gameId
  | _ => False
  end.

(** [game'] is [game] later: its status is not earlier, and a finished
    game is the same record. *)
Definition forward (game game' : Game.t) : Prop :=
  rank (Game.status game) ≤ rank (Game.status game')
  ∧ (Game.status game = finished → game' = game).

Definition forwardAt (gameId : string) (st st' : Store) : Prop :=
  ∀ game, games st !! gameId = Some game →
          ∃ game', games st' !! gameId = Some game' ∧ forward game game'.

(** ** Scenarios *)

(** Two users, and a game of the first that the second has joined. *)
Definition lobby : Store :=
  run newStore [CreateUser "ann"; CreateUser "bob";
                CreateGame "LOBBY1" 1 false; JoinGame "LOBBY1" 2].

(** The same game with four players, still waiting. *)
Definition lobbyFull : Store :=
  run lobby [JoinGame "LOBBY1" 3; JoinGame "LOBBY1" 4].

(** The game of four once it is started. *)
Definition startedFull : Store := run lobbyFull [StartGame "LOBBY1" 0 0].

(** A bot game in its first round: the word is MUSIC until time 6000. *)
Definition roundOne : Store :=
  run newStore [CreateUser "ann"; CreateGame "ABC123" 1 true;
                StartGame "ABC123" 1000 (1 # 2)].

(** The same game after four rounds have timed out: round 5, word STORM. *)
Definition roundFive : Store :=
  run roundOne [GetGame "ABC123" 7000 0 0 0; GetGame "ABC123" 13000 0 0 0;
                GetGame "ABC123" 19000 0 0 0; GetGame "ABC123" 25000 0 0 0].

(** The same game after the fifth round has timed out. *)
Definition gameOver : Store := run roundFive [GetGame "ABC123" 31000 0 0 0].

(** ** Vocabulary of the further properties *)

(** The part of the store that the games themselves do not touch: users,
    players, enrollment and the two counters. *)
Definition roster (st : Store)
  : gmap Z User.t * gmap Z Player.t * gmap string (list Z) * Z * Z :=
  (users st, players st, gamePlayers st, userIdCounter st, playerIdCounter st).

(** What every reachable store satisfies about users, players and
    enrollment: identifiers are the numbers from 1 up to the counters,
    records carry their own id, every enrolled id is a player id, a player
    is enrolled at most once and in the game its record names, a user other
    than the bot has at most one player in a game, and no record has its
    [hasSubmitted] flag set or a negative score. *)
Record roster_ok (st : Store) : Prop := {
  ro_counters : 1 ≤ userIdCounter st ∧ 1 ≤ playerIdCounter st;
  ro_users : ∀ id, is_Some (users st !! id) ↔ 1 ≤ id < userIdCounter st;
  ro_user_id : ∀ id u, users st !! id = Some u → User.id u = id;
  ro_players : ∀ pid, is_Some (players st !! pid) ↔ 1 ≤ pid < playerIdCounter st;
  ro_enrolled : ∀ k pid, pid ∈ playerIdsOf st k → 1 ≤ pid < playerIdCounter st;
  ro_nodup : ∀ k, NoDup (playerIdsOf st k);
  ro_disjoint : ∀ k1 k2 pid,
      pid ∈ playerIdsOf st k1 → pid ∈ playerIdsOf st k2 → k1 = k2;
  ro_gameId : ∀ k pid p,
      pid ∈ playerIdsOf st k → players st !! pid = Some p → Player.gameId p = k;
  ro_user_once : ∀ k pid1 pid2 p1 p2,
      pid1 ∈ playerIdsOf st k → pid2 ∈ playerIdsOf st k →
      players st !! pid1 = Some p1 → players st !! pid2 = Some p2 →
      Player.userId p1 = Player.userId p2 → Player.userId p1 ≠ -1 →
      pid1 = pid2;
  ro_plain : ∀ pid p, players st !! pid = Some p →
      Player.id p = pid ∧ Player.hasSubmitted p = false ∧ 0 ≤ Player.score p
}.

(** The round counter that goes with each status. *)
Definition roundMatchesStatus (game : Game.t) : Prop :=
  match Game.status game with
  | waiting => Game.round game = 0 ∧ Game.currentWord game = EmptyString
  | playing => 1 ≤ Game.round game ≤ 5
  | finished => Game.round game = 5
  end.

(** A game after a sequence of round resolutions, each with its winning
    word, if any, its clock reading and its draw. *)
Definition endRounds (game : Game.t) (steps : list (option string * Z * Q))
  : Game.t :=
  fold_left (λ g '(w, now, u), endRoundGame g w now u) steps game.

(** The word is made of ASCII characters only, with codes below 128. On
    such words [toUpperCase] changes the letters a-z and nothing else, and
    [trim] strips the six ASCII white-space characters and nothing else. *)
Fixpoint asciiOnly (s : string) : bool :=
  match s with
  | EmptyString => true
  | String c r => (nat_of_ascii c <? 128)%nat && asciiOnly r
  end.

(** The current word ends in a white-space character. *)
Definition endsInWhiteSpace (game : Game.t) : Prop :=
  ∃ w c, Game.currentWord game = w +:+ String c EmptyString
         ∧ JsString.isWhiteSpace c = true.

(** The window in which [processBotMove] lets the bot answer: strictly
    between one and three seconds before the round expires. *)
Definition botWindow (game : Game.t) (now : Z) : Prop :=
  ∃ t, Game.roundEndsAt game = Some t ∧ 1000 < t - now < 3000.

(** The draw lets the bot answer: [Math.random() > 0.3]. *)
Definition botDraw (uBot : Q) : Prop := (botMissThreshold < uBot)%Q.

(** Every game of the store has the property [P]. *)
Definition allGames (P : Game.t → Prop) (st : Store) : Prop :=
  ∀ k g, games st !! k = Some g → P g.

(** Every player of [st] is still stored in [st'], for the same user and
    game and with a score that is not lower. *)
Definition keepsPlayers (st st' : Store) : Prop :=
  ∀ pid p, players st !! pid = Some p →
    ∃ p', players st' !! pid = Some p'
          ∧ Player.userId p' = Player.userId p
          ∧ Player.gameId p' = Player.gameId p
          ∧ Player.score p ≤ Player.score p'.

(** The call creates a game under the code [gameId]. *)
Definition recreates (gameId : string) (c : call) : Prop :=
  match c with
  | CreateGame id _ _ => id = gameId
  | _ => False
  end.

(** Two records of one game: same id, same host, same bot flag. *)
Definition sameGame (game game' : Game.t) : Prop :=
  Game.id game' = Game.id game
  ∧ Game.hostId game' = Game.hostId game
  ∧ Game.isBotGame game' = Game.isBotGame game.

(** Every bot game has a player of the bot's user -1 enrolled. *)
Definition botEnrolled (st : Store) : Prop :=
  ∀ k game, games st !! k = Some game → Game.isBotGame game = true →
            enrolled st k (-1).

(** ** The HTTP routes (server/routes.ts) *)

Module Http.
(** The JSON bodies the routes send. *)
Inductive Body :=
| JsonMessage (message : option string)
| JsonGameId (gameId : string)
| JsonPlayer (player : Player.t)
| JsonGameState (state : GameState.t)
| JsonSuccess
| JsonSuccessPoints (points : Z).

(** [res.status(code).json(body)]; the status is 200 where none is set. *)
Record Response := mk { status : Z; body : Body }.
End Http.

(** A request to one of the game routes. The body of a POST is given as
    the result of the input schema's [parse], which returns the parsed
    input or throws; the code of a new game, the clock reading and the
    draws are those of the store call the route makes. *)
Inductive request :=
| PostGame (code : string) (input : outcome (Z * bool))
| PostJoin (gameId : string) (input : outcome Z)
| GetGameState (gameId : string) (now : Z) (uTimeout uBot u : Q)
| PostStart (gameId : string) (now : Z) (u : Q)
| PostSubmitWord (gameId : string) (input : outcome (Z * string)) (now : Z) (u : Q).

(** The handlers registered by [registerRoutes] for the game routes, on the
    store [storage]. *)
Definition handle (st : Store) (req : request) : Http.Response * Store :=
  match req with
  | PostGame code input =>
      match input with
      | Throw _ => (Http.mk 400 (Http.JsonMessage (Some "Invalid input")), st)
      | Return (hostId, isBotGame) =>
          match createGame st code hostId isBotGame with
          | (Return game, st') => (Http.mk 201 (Http.JsonGameId (Game.id game)), st')
          | (Throw _, st') =>
              (Http.mk 400 (Http.JsonMessage (Some "Invalid input")), st')
          end
      end
  | PostJoin gameId input =>
      match input with
      | Throw m => (Http.mk 400 (Http.JsonMessage (Some m)), st)
      | Return userId =>
          match joinGame st gameId userId with
          | (Return player, st') => (Http.mk 200 (Http.JsonPlayer player), st')
          | (Throw m, st') => (Http.mk 400 (Http.JsonMessage (Some m)), st')
          end
      end
  | GetGameState gameId now uTimeout uBot u =>
      match getGame st gameId now uTimeout uBot u with
      | (None, st') =>
          (Http.mk 404 (Http.JsonMessage (Some "Game not found")), st')
      | (Some game, st') => (Http.mk 200 (Http.JsonGameState game), st')
      end
  | PostStart gameId now u =>
      match startGame st gameId now u with
      | (Return _, st') => (Http.mk 200 Http.JsonSuccess, st')
      | (Throw m, st') => (Http.mk 400 (Http.JsonMessage (Some m)), st')
      end
  | PostSubmitWord gameId input now u =>
      match input with
      | Throw m => (Http.mk 400 (Http.JsonMessage (Some m)), st)
      | Return (userId, word) =>
          let '(result, st') := submitWord st gameId userId word now u in
          if negb (SubmitResult.valid result)
          then (Http.mk 400 (Http.JsonMessage (SubmitResult.message result)), st')
          else (Http.mk 200 (Http.JsonSuccessPoints 1), st')
      end
  end.

(** ** The client's response helper (client hooks) *)

Module Fetch.
(** What [handleResponse] reads of a fetch [Response]: [res.ok],
    [res.status] and the result of [res.json()]. *)
Record Response (Json : Type) := mk {
  ok : bool;
  status : Z;
  json : outcome Json
}.
Arguments mk {Json} ok status json.
Arguments ok {Json} r.
Arguments status {Json} r.
Arguments json {Json} r.
End Fetch.

(** [handleResponse(res, schema)]: [messageOf] reads [error.message] off a
    body and [parse] is [schema.parse].  For a response that is not ok the
    body is read and an error is thrown inside a [try] whose [catch]
    throws the error of the second template. *)
Definition handleResponse {Json T : Type} (messageOf : Json → option string)
    (parse : Json → outcome T) (res : Fetch.Response Json) : outcome T :=
  if negb (Fetch.ok res) then
    let attempt : outcome T :=
      match Fetch.json res with
      | Return error =>
          Throw (match messageOf error with
                 | Some m => if JsString.truthy m then m
                             else "Error " +:+ pretty (Fetch.status res)
                 | None => "Error " +:+ pretty (Fetch.status res)
                 end)
      | Throw m => Throw m
      end in
    match attempt with
    | Return data => Return data
    | Throw _ => Throw ("Request failed with status " +:+ pretty (Fetch.status res))
    end
  else
    match Fetch.json res with
    | Return data => parse data
    | Throw m => Throw m
    end.

(** The response of a route as the client's [fetch] receives it: ok for a
    status from 200 to 299, with the JSON body. *)
Definition received (res : Http.Response) : Fetch.Response Http.Body :=
  Fetch.mk ((200 <=? Http.status res) && (Http.status res <=? 299))
           (Http.status res) (Return (Http.body res)).

(** [error.message] of a body sent by a route. *)
Definition messageOfBody (body : Http.Body) : option string :=
  match body with
  | Http.JsonMessage m => m
  | _ => None
  end.

(** ** Further scenarios *)

(** The lobby with a third player. *)
Definition lobbyThree : Store := run lobby [JoinGame "LOBBY1" 3].

(** The bot game after the host has answered MUSIC with " cat ": the word
    is " CAT ", trailing space included. *)
Definition afterSpace : Store :=
  run roundOne [SubmitWord "ABC123" 1 " cat " 1500 0].

(** ** Random draws and strings *)

Example trim_both_ends : JsString.trim "  code " = "code"%string.
Proof. reflexivity. Qed.

Example trim_white_space_only : JsString.trim "   " = EmptyString.
Proof. reflexivity. Qed.

Example firstChar_trims : firstChar "  code " = "C"%string.
Proof. reflexivity. Qed.

Example sliceLast_word : JsString.sliceLast "MUSIC" = "C"%string.
Proof. reflexivity. Qed.

Example pickWord_half : pickWord startWords (1 # 2) = "MUSIC"%string.
Proof. reflexivity. Qed.

Example pickWord_high : pickWord backupWords (999 # 1000) = "FLAME"%string.
Proof. reflexivity. Qed.

Lemma randomIndex_lt (u : Q) (n : nat) :
  unit_draw u → (0 < n)%nat → (randomIndex u n < n)%nat.
Proof.
  intros [H0 H1] Hn. unfold randomIndex.
  set (q := inject_Z (Z.of_nat n)).
  assert (Hq : (0 < q)%Q).
  { change (inject_Z 0 < inject_Z (Z.of_nat n))%Q. rewrite <- Zlt_Qlt. lia. }
  assert (Hlo : 0 <= Qfloor (u * q)).
  { change 0 with (Qfloor 0). apply Qfloor_resp_le.
    apply Qmult_le_0_compat; [done | by apply Qlt_le_weak]. }
  assert (Hhi : Qfloor (u * q) < Z.of_nat n).
  { rewrite Zlt_Qlt. eapply Qle_lt_trans; [apply Qfloor_le |].
    fold q. rewrite <- (Qmult_1_l q) at 2.
    by apply Qmult_lt_compat_r. }
  lia.
Qed.

Lemma pickWord_In (words : list string) (u : Q) :
  unit_draw u → words ≠ [] → In (pickWord words u) words.
Proof.
  intros Hu Hw. unfold pickWord. apply nth_In, randomIndex_lt; [done |].
  destruct words; [done | simpl; lia].
Qed.

Lemma startWords_truthy (w : string) : In w startWords → w ≠ EmptyString.
Proof. unfold startWords. simpl. intros H. intuition (subst; discriminate). Qed.

Lemma backupWords_truthy (w : string) : In w backupWords → w ≠ EmptyString.
Proof. unfold backupWords. simpl. intros H. intuition (subst; discriminate). Qed.

Lemma truthy_nonempty (s : string) : JsString.truthy s = true ↔ s ≠ EmptyString.
Proof. destruct s; simpl; split; intros; congruence. Qed.

Lemma toUpperCase_truthy (s : string) :
  JsString.truthy (JsString.toUpperCase s) = JsString.truthy s.
Proof. by destruct s. Qed.

(** A word whose first letter is a letter at all is not the empty word. *)
Lemma firstChar_truthy (word : string) :
  firstChar word ≠ EmptyString → word ≠ EmptyString.
Proof. unfold firstChar, JsString.trim. by destruct word. Qed.

Lemma sliceLast_truthy (s : string) :
  s ≠ EmptyString → JsString.sliceLast s ≠ EmptyString.
Proof.
  induction s as [| c r IH]; [done |]. intros _. simpl.
  destruct r; [done |]. by apply IH.
Qed.

Lemma lastChar_truthy (game : Game.t) :
  Game.currentWord game ≠ EmptyString → lastChar game ≠ EmptyString.
Proof.
  intros H. unfold lastChar. apply truthy_nonempty.
  rewrite toUpperCase_truthy. by apply truthy_nonempty, sliceLast_truthy.
Qed.

(** ** Looking up the player of a user *)

Lemma findPlayer_Some ps userId l pid p :
  findPlayer ps userId l = Some (pid, p) →
  pid ∈ l ∧ ps !! pid = Some p ∧ Player.userId p = userId.
Proof.
  induction l as [| x l IH]; simpl; [done |].
  destruct (ps !! x) as [q |] eqn:Hx.
  - destruct (Player.userId q =? userId) eqn:Hq.
    + intros [= <- <-]. split; [left | split; [done | lia]].
    + intros H. destruct (IH H) as (? & ? & ?). split; [by right | done].
  - intros H. destruct (IH H) as (? & ? & ?). split; [by right | done].
Qed.

Lemma findPlayer_None ps userId l :
  findPlayer ps userId l = None →
  ∀ pid p, pid ∈ l → ps !! pid = Some p → Player.userId p ≠ userId.
Proof.
  induction l as [| x l IH]; simpl; intros H pid p Hin Hp.
  - by apply elem_of_nil in Hin.
  - apply elem_of_cons in Hin as [-> | Hin].
    + rewrite Hp in H. destruct (Player.userId p =? userId) eqn:Hq; [done | lia].
    + destruct (ps !! x) as [q |]; [| by eapply IH].
      destruct (Player.userId q =? userId); [done | by eapply IH].
Qed.

Lemma enrolled_findPlayer st gameId userId :
  enrolled st gameId userId ↔
  is_Some (findPlayer (players st) userId (playerIdsOf st gameId)).
Proof.
  split.
  - intros (pid & p & Hin & Hp & Hu).
    destruct (findPlayer _ _ _) eqn:Hf; [done |].
    by destruct (findPlayer_None _ _ _ Hf pid p Hin Hp).
  - intros [[pid p] Hf]. apply findPlayer_Some in Hf. by exists pid, p.
Qed.

(** ** The store invariant *)

Lemma endRound_own_key st key game w now u :
  Game.id game = key →
  endRound st key game w now u
  = set_games st (<[key := endRoundGame game w now u]> (games st)).
Proof.
  intros Hid. unfold endRound.
  assert (Game.id (endRoundGame game w now u) = key) as ->.
  { unfold endRoundGame. by destruct (5 <=? Game.round game). }
  by rewrite insert_insert_eq.
Qed.

Lemma endRoundGame_expiry game w now u :
  Game.status game = playing →
  Game.roundEndsAt (endRoundGame game w now u) ≠ None
  ↔ Game.status (endRoundGame game w now u) = playing.
Proof.
  intros Hs. unfold endRoundGame.
  destruct (5 <=? Game.round game); simpl; [done | by rewrite Hs].
Qed.

Lemma endRoundGame_word game w now u :
  unit_draw u →
  Game.currentWord game ≠ EmptyString →
  Game.currentWord (endRoundGame game w now u) ≠ EmptyString.
Proof.
  intros Hu Hw. unfold endRoundGame.
  destruct (5 <=? Game.round game); simpl; [done |].
  assert (Hb : pickWord backupWords u ≠ EmptyString)
    by (by apply backupWords_truthy, pickWord_In).
  destruct w as [w |]; [| done].
  destruct (JsString.truthy w) eqn:Ht; [by apply truthy_nonempty | done].
Qed.

Lemma wf_newStore : wf_store newStore.
Proof.
  split; simpl; intros; try done.
  unfold playerIdsOf. simpl. rewrite lookup_empty. simpl. lia.
Qed.

Lemma wf_createUser st username : wf_store st → wf_store (snd (createUser st username)).
Proof. intros []. by split. Qed.

Lemma wf_enroll st gameId userId :
  wf_store st → (length (playerIdsOf st gameId) < 4)%nat →
  wf_store (snd (enroll st gameId userId)).
Proof.
  intros [] Hlen. split; simpl; try done.
  - intros k p. rewrite lookup_insert. destruct (decide _) as [<- |].
    + intros [= <-]. simpl. lia.
    + intros Hp. destruct (wf_player_id0 _ _ Hp). lia.
  - lia.
  - intros k l pid. rewrite lookup_insert. destruct (decide _) as [<- |].
    + intros [= <-] Hin. apply elem_of_app in Hin as [Hin | Hin].
      * unfold playerIdsOf in Hin.
        destruct (gamePlayers st !! gameId) as [l |] eqn:Hl; simpl in Hin.
        -- destruct (wf_enrolled0 _ _ _ Hl Hin) as [q Hq].
           rewrite lookup_insert_ne; [by eexists |].
           intros <-. destruct (wf_player_id0 _ _ Hq). lia.
        -- by apply elem_of_nil in Hin.
      * apply list_elem_of_singleton in Hin as ->. rewrite lookup_insert_eq. by eexists.
    + intros Hl Hin. destruct (wf_enrolled0 _ _ _ Hl Hin) as [q Hq].
      rewrite lookup_insert_ne; [by eexists |].
      intros <-. destruct (wf_player_id0 _ _ Hq). lia.
  - intros k. unfold playerIdsOf at 1. simpl. rewrite lookup_insert.
    destruct (decide _) as [<- |]; simpl.
    + rewrite length_app. simpl. lia.
    + apply wf_count0.
Qed.

Lemma wf_joinGame st gameId userId :
  wf_store st → wf_store (snd (joinGame st gameId userId)).
Proof.
  intros Hwf. unfold joinGame.
  destruct (games st !! gameId); [| done].
  destruct (negb _); [done |].
  destruct (4 <=? length (playerIdsOf st gameId))%nat eqn:Hlen; [done |].
  apply Nat.leb_gt in Hlen.
  destruct (findPlayer _ _ _) as [[existing p] |].
  - destruct (negb _); [done |]. by apply wf_enroll.
  - by apply wf_enroll.
Qed.

Lemma playerIdsOf_enroll st gameId userId k :
  playerIdsOf (snd (enroll st gameId userId)) k
  = if decide (gameId = k) then playerIdsOf st gameId ++ [playerIdCounter st]
    else playerIdsOf st k.
Proof.
  unfold playerIdsOf at 1. simpl. rewrite lookup_insert.
  by destruct (decide (gameId = k)).
Qed.

(** [createGame] never throws: the host joins a game that is new, and the
    bot, if any, is enrolled after the host. *)
Lemma createGame_eq st id hostId isBotGame :
  createGame st id hostId isBotGame
  = (Return (Game.mk id hostId waiting 0 EmptyString None isBotGame),
     let st2 := snd (enroll (createGameStore st id hostId isBotGame) id hostId) in
     if isBotGame then snd (enroll st2 id (-1)) else st2).
Proof.
  unfold createGame. fold (createGameStore st id hostId isBotGame).
  set (st1 := createGameStore st id hostId isBotGame).
  assert (Hl : playerIdsOf st1 id = []).
  { unfold playerIdsOf, st1. simpl. by rewrite lookup_insert_eq. }
  unfold joinGame.
  replace (games st1 !! id)
    with (Some (Game.mk id hostId waiting 0 EmptyString None isBotGame))
    by (unfold st1; simpl; by rewrite lookup_insert_eq).
  simpl. rewrite Hl. simpl.
  destruct isBotGame; [| done].
  rewrite lookup_insert_eq.
  unfold enroll, set_gamePlayers, playerIdsOf, st1, createGameStore. simpl.
  by rewrite !lookup_insert_eq.
Qed.

Lemma wf_createGameStore st id hostId isBotGame :
  wf_store st → wf_store (createGameStore st id hostId isBotGame).
Proof.
  intros []. split; simpl; try done.
  - intros k g. rewrite lookup_insert. destruct (decide _) as [<- |]; [| by eauto].
    by intros [= <-].
  - intros k l pid. rewrite lookup_insert. destruct (decide _) as [<- |]; [| by eauto].
    intros [= <-] Hin. by apply elem_of_nil in Hin.
  - intros k. unfold playerIdsOf. simpl. rewrite lookup_insert.
    destruct (decide _) as [<- |]; simpl; [lia | apply wf_count0].
  - intros k g. rewrite lookup_insert. destruct (decide _) as [<- |]; [| by eauto].
    by intros [= <-].
  - intros k g. rewrite lookup_insert. destruct (decide _) as [<- |]; [| by eauto].
    by intros [= <-].
Qed.

Lemma wf_createGame st id hostId isBotGame :
  wf_store st → wf_store (snd (createGame st id hostId isBotGame)).
Proof.
  intros Hwf. rewrite createGame_eq. cbn [snd].
  set (st1 := createGameStore st id hostId isBotGame).
  assert (Hl : playerIdsOf st1 id = []).
  { unfold playerIdsOf, st1. simpl. by rewrite lookup_insert_eq. }
  assert (Hwf2 : wf_store (snd (enroll st1 id hostId))).
  { apply wf_enroll; [by apply wf_createGameStore | rewrite Hl; simpl; lia]. }
  destruct isBotGame; [| done].
  apply wf_enroll; [done |].
  rewrite playerIdsOf_enroll, decide_True, Hl by done. simpl. lia.
Qed.

Lemma wf_startGame st gameId now u :
  wf_store st → unit_draw u → wf_store (snd (startGame st gameId now u)).
Proof.
  intros Hwf Hu. unfold startGame.
  destruct (games st !! gameId) as [game |] eqn:Hg; [| done].
  destruct Hwf. split; simpl; try done.
  - intros k g. rewrite lookup_insert. destruct (decide _) as [<- |]; [| by eauto].
    intros [= <-]. simpl. by eapply wf_game_id0.
  - intros k g. rewrite lookup_insert. destruct (decide _) as [<- |]; [| by eauto].
    intros [= <-] _. simpl. by apply startWords_truthy, pickWord_In.
  - intros k g. rewrite lookup_insert. destruct (decide _) as [<- |]; [| by eauto].
    by intros [= <-].
Qed.

Lemma wf_endRound st key game w now u :
  wf_store st → games st !! key = Some game → Game.status game = playing →
  unit_draw u → wf_store (endRound st key game w now u).
Proof.
  intros Hwf Hg Hs Hu.
  rewrite endRound_own_key by (by eapply wf_game_id).
  destruct Hwf. split; simpl; try done.
  - intros k g. rewrite lookup_insert. destruct (decide _) as [<- |]; [| by eauto].
    intros [= <-]. transitivity (Game.id game); [| by eapply wf_game_id0].
    unfold endRoundGame. by destruct (5 <=? Game.round game).
  - intros k g. rewrite lookup_insert. destruct (decide _) as [<- |]; [| by eauto].
    intros [= <-] _. apply endRoundGame_word; [done |]. by eapply wf_word0.
  - intros k g. rewrite lookup_insert. destruct (decide _) as [<- |]; [| by eauto].
    intros [= <-]. by apply endRoundGame_expiry.
Qed.

(** The store after [player.score += 1; this.players.set(player.id, player)]
    for the record read under [pid]. *)
Lemma scored_own_key st pid p :
  Player.id p = pid →
  <[Player.id p := Player.scored p]> (<[pid := Player.scored p]> (players st))
  = <[pid := Player.scored p]> (players st).
Proof. intros <-. by rewrite insert_insert_eq. Qed.

Lemma wf_scored st pid p :
  wf_store st → players st !! pid = Some p →
  wf_store (set_players st (<[pid := Player.scored p]> (players st))).
Proof.
  intros [] Hp. split; simpl; try done.
  - intros k q. rewrite lookup_insert. destruct (decide _) as [<- |]; [| by eauto].
    intros [= <-]. simpl. by apply wf_player_id0.
  - intros k l x Hl Hin. rewrite lookup_insert. destruct (decide _); [by eexists |].
    by eapply wf_enrolled0.
Qed.

Lemma wf_submitWord st gameId userId word now u :
  wf_store st → unit_draw u →
  wf_store (snd (submitWord st gameId userId word now u)).
Proof.
  intros Hwf Hu. unfold submitWord.
  destruct (games st !! gameId) as [game |] eqn:Hg; [| done].
  destruct (bool_decide (Game.status game = playing)) eqn:Hs; [| done].
  apply bool_decide_eq_true in Hs. simpl.
  destruct (negb _); [done |]. simpl.
  apply wf_endRound; [| | done | done].
  - destruct (findPlayer _ _ _) as [[pid p] |] eqn:Hf; [| done].
    apply findPlayer_Some in Hf as (_ & Hp & _). cbv zeta.
    rewrite scored_own_key by (by eapply wf_player_id). by apply wf_scored.
  - by destruct (findPlayer _ _ _) as [[pid p] |].
Qed.

Lemma wf_processBotMove st gameId now uBot u :
  wf_store st → unit_draw u → wf_store (processBotMove st gameId now uBot u).
Proof.
  intros Hwf Hu. unfold processBotMove.
  destruct (games st !! gameId) as [game |]; [| done].
  destruct (_ || _); [done |].
  destruct (_ && _); [| done].
  destruct (negb _); [| done].
  by apply wf_submitWord.
Qed.

Lemma wf_getGame st id now uTimeout uBot u :
  wf_store st → unit_draw uTimeout → unit_draw u →
  wf_store (snd (getGame st id now uTimeout uBot u)).
Proof.
  intros Hwf Ht Hu. unfold getGame.
  destruct (games st !! id) as [game |] eqn:Hg; [| done].
  simpl.
  set (st1 := if _ && _ then _ else st).
  assert (Hwf1 : wf_store st1).
  { unfold st1. destruct (bool_decide (Game.status game = playing)) eqn:Hs; [| done].
    apply bool_decide_eq_true in Hs. simpl.
    destruct (match Game.roundEndsAt game with Some _ => _ | None => _ end); [| done].
    by apply wf_endRound. }
  clearbody st1.
  destruct (_ && _); [by apply wf_processBotMove | done].
Qed.

Lemma wf_exec st c : wf_store st → draws_ok c → wf_store (exec st c).
Proof.
  intros Hwf Hc. destruct c; simpl in *.
  - by apply wf_createUser.
  - done.
  - by apply wf_createGame.
  - destruct Hc as (? & ? & ?). by apply wf_getGame.
  - by apply wf_joinGame.
  - by apply wf_startGame.
  - by apply wf_submitWord.
  - destruct Hc as (? & ?). by apply wf_processBotMove.
Qed.

(** Every reachable store is well formed. *)
Lemma reachable_wf st : reachable st → wf_store st.
Proof.
  induction 1 as [| st c _ IH Hc]; [apply wf_newStore | by apply wf_exec].
Qed.

Lemma reachable_run st cs :
  reachable st → Forall draws_ok cs → reachable (run st cs).
Proof.
  intros Hst Hcs. revert st Hst.
  induction Hcs as [| c cs Hc _ IH]; intros st Hst; [done |].
  simpl. apply IH. by constructor.
Qed.

(** ** Starting a game *)

(** C6. [startGame] throws exactly when the game does not exist; on an
    existing game, whatever its status and its players, it sets the status
    to playing, the round to 1, the current word to one of the eight
    starter words and the round expiry to five seconds from now, and
    changes nothing else. *)
Theorem startGame_spec st gameId now u :
  unit_draw u →
  ((∃ m, fst (startGame st gameId now u) = Throw m) ↔ games st !! gameId = None)
  ∧ (games st !! gameId = None →
     startGame st gameId now u = (Throw "Game not found", st))
  ∧ (∀ game, games st !! gameId = Some game →
     ∃ word, In word startWords
       ∧ length startWords = 8%nat
       ∧ startGame st gameId now u
         = (Return tt,
            set_games st
              (<[gameId := Game.mk (Game.id game) (Game.hostId game) playing 1
                             word (Some (now + 5000)) (Game.isBotGame game)]>
                 (games st)))).
Proof.
  intros Hu. unfold startGame.
  destruct (games st !! gameId) as [game |] eqn:Hg.
  - split; [| split]; [| done |].
    + simpl. split; [by intros [m Hm] | done].
    + intros g [= <-]. exists (pickWord startWords u).
      split; [by apply pickWord_In | done].
  - split; [| split]; [| done | done].
    simpl. split; [done | by eexists].
Qed.

(** ** Submitting a word *)

(** C3. In a playing game, a word whose first character (after trimming,
    upper-cased) differs from the last character of the current word
    (upper-cased) is answered with [valid: false] and a message naming the
    required letter, and the store is left as it was: scores, round,
    current word, status and expiry included. *)
Theorem submitWord_wrong_letter st gameId userId word now u game :
  games st !! gameId = Some game →
  Game.status game = playing →
  firstChar word ≠ lastChar game →
  submitWord st gameId userId word now u
  = (SubmitResult.mk false
       (Some ("Word must start with '" +:+ lastChar game +:+ "'")), st).
Proof.
  intros Hg Hs Hne. unfold submitWord. rewrite Hg.
  rewrite bool_decide_eq_true_2 by done. simpl.
  apply String.eqb_neq in Hne. by rewrite Hne.
Qed.

Lemma endRoundGame_won game word now u :
  word ≠ EmptyString → endRoundGame game (Some word) now u = wonRound game word now.
Proof.
  intros Hw. unfold endRoundGame, wonRound.
  apply truthy_nonempty in Hw. by rewrite Hw.
Qed.

(** A submission that passes the first-letter check in a well-formed store:
    the player of the user, if enrolled, scores and the round is resolved
    with the upper-cased word. *)
Lemma submitWord_accepted st gameId userId word now u game :
  wf_store st →
  games st !! gameId = Some game →
  Game.status game = playing →
  firstChar word = lastChar game →
  submitWord st gameId userId word now u
  = (SubmitResult.mk true None,
     mkStore (users st)
       (<[gameId := wonRound game (JsString.toUpperCase word) now]> (games st))
       (scoredPlayers st gameId userId) (gamePlayers st)
       (userIdCounter st) (playerIdCounter st)).
Proof.
  intros Hwf Hg Hs Heq. unfold submitWord. rewrite Hg.
  rewrite bool_decide_eq_true_2 by done. simpl.
  apply String.eqb_eq in Heq as Heqb. rewrite Heqb. simpl.
  assert (Hword : JsString.toUpperCase word ≠ EmptyString).
  { apply truthy_nonempty. rewrite toUpperCase_truthy. apply truthy_nonempty.
    apply firstChar_truthy. rewrite Heq. apply lastChar_truthy.
    by eapply wf_word. }
  f_equal. rewrite endRound_own_key by (by eapply wf_game_id).
  rewrite endRoundGame_won by done. unfold scoredPlayers.
  destruct (findPlayer _ _ _) as [[pid p] |] eqn:Hf; [| done].
  apply findPlayer_Some in Hf as (_ & Hp & _).
  unfold set_games, set_players. simpl.
  rewrite scored_own_key; [done |]. by eapply wf_player_id.
Qed.

Lemma wonRound_open game word now :
  Game.round game < 5 →
  wonRound game word now
  = Game.mk (Game.id game) (Game.hostId game) (Game.status game)
            (Game.round game + 1) word (Some (now + 5000)) (Game.isBotGame game).
Proof. intros H. unfold wonRound. by rewrite (proj2 (Z.leb_gt _ _) H). Qed.

Lemma wonRound_last game word now :
  5 ≤ Game.round game →
  wonRound game word now
  = Game.mk (Game.id game) (Game.hostId game) finished (Game.round game)
            (Game.currentWord game) None (Game.isBotGame game).
Proof. intros H. unfold wonRound. by rewrite (proj2 (Z.leb_le _ _) H). Qed.

Lemma wonRound_resolvedBy game word now :
  Game.status game = playing → resolvedBy game (wonRound game word now) word now.
Proof.
  intros Hs. split; intros Hr.
  - by rewrite wonRound_open.
  - by rewrite wonRound_last.
Qed.

(** C4. In a reachable store, a submission by an enrolled user that passes
    the first-letter check of a playing game returns [valid: true], adds
    exactly 1 to the score of that user's player and leaves every other
    player record as it was, and resolves the round: the round counter
    grows by exactly 1 and the upper-cased submitted word becomes the current
    word, or, when the counter had reached 5, the game becomes finished and
    its expiry is cleared. *)
Theorem submitWord_enrolled st gameId userId word now u game :
  reachable st →
  games st !! gameId = Some game →
  Game.status game = playing →
  firstChar word = lastChar game →
  enrolled st gameId userId →
  ∃ pid p game',
    pid ∈ playerIdsOf st gameId
    ∧ players st !! pid = Some p
    ∧ Player.userId p = userId
    ∧ fst (submitWord st gameId userId word now u) = SubmitResult.mk true None
    ∧ players (snd (submitWord st gameId userId word now u))
      = <[pid := Player.mk (Player.id p) (Player.gameId p) (Player.userId p)
                           (Player.score p + 1) (Player.hasSubmitted p)]>
          (players st)
    ∧ (∀ q, q ≠ pid →
        players (snd (submitWord st gameId userId word now u)) !! q
        = players st !! q)
    ∧ games (snd (submitWord st gameId userId word now u))
      = <[gameId := game']> (games st)
    ∧ resolvedBy game game' (JsString.toUpperCase word) now.
Proof.
  intros Hst Hg Hs Heq Hen. apply reachable_wf in Hst.
  rewrite (submitWord_accepted _ _ _ _ _ _ game) by done. simpl.
  apply enrolled_findPlayer in Hen as [[pid p] Hf].
  unfold scoredPlayers. rewrite Hf.
  apply findPlayer_Some in Hf as (Hin & Hp & Hu).
  exists pid, p, (wonRound game (JsString.toUpperCase word) now).
  split_and!; try done.
  - intros q Hq. by rewrite lookup_insert_ne.
  - by apply wonRound_resolvedBy.
Qed.

(** C9, as the code has it. In a reachable store, a submission by a user
    who is not enrolled in the playing game, with a word that passes the
    first-letter check, returns [valid: true] and changes no player record;
    the round is resolved as for any winner: below round 5 the counter
    grows by 1 and the upper-cased word becomes the current word, at round
    5 the game becomes finished and round and current word stay. *)
Theorem submitWord_outsider st gameId userId word now u game :
  reachable st →
  games st !! gameId = Some game →
  Game.status game = playing →
  firstChar word = lastChar game →
  ¬ enrolled st gameId userId →
  ∃ game',
    fst (submitWord st gameId userId word now u) = SubmitResult.mk true None
    ∧ players (snd (submitWord st gameId userId word now u)) = players st
    ∧ games (snd (submitWord st gameId userId word now u))
      = <[gameId := game']> (games st)
    ∧ resolvedBy game game' (JsString.toUpperCase word) now.
Proof.
  intros Hst Hg Hs Heq Hen. apply reachable_wf in Hst.
  rewrite (submitWord_accepted _ _ _ _ _ _ game) by done. simpl.
  exists (wonRound game (JsString.toUpperCase word) now).
  split_and!; try done.
  - unfold scoredPlayers.
    destruct (findPlayer _ _ _) as [[pid p] |] eqn:Hf; [| done].
    destruct Hen. apply enrolled_findPlayer. by eexists.
  - by apply wonRound_resolvedBy.
Qed.

Lemma toUpperCase_app (a b : string) :
  JsString.toUpperCase (a +:+ b) = JsString.toUpperCase a +:+ JsString.toUpperCase b.
Proof. induction a as [| c a IH]; simpl; [done | by rewrite IH]. Qed.

Lemma sliceLast_snoc (a : string) (c : ascii) :
  JsString.sliceLast (a +:+ String c EmptyString) = String c EmptyString.
Proof.
  induction a as [| d a IH]; simpl; [done |].
  rewrite IH. by destruct a.
Qed.

(** White space has no upper case of its own. *)
Lemma upperChar_whiteSpace (c : ascii) :
  JsString.isWhiteSpace c = true → JsString.upperChar c = c.
Proof.
  unfold JsString.isWhiteSpace, JsString.upperChar, JsString.isLower.
  intros H. destruct (97 <=? nat_of_ascii c)%nat eqn:Hlo; [| done].
  apply Nat.leb_le in Hlo.
  apply orb_true_iff in H as [H | H].
  - apply andb_true_iff in H as [_ H]. apply Nat.leb_le in H. lia.
  - apply Nat.eqb_eq in H. lia.
Qed.

Lemma trimStart_head (s : string) c r :
  JsString.trimStart s = String c r → JsString.isWhiteSpace c = false.
Proof.
  induction s as [| d s IH]; simpl; [done |].
  destruct (JsString.isWhiteSpace d) eqn:Hd; [done | by intros [= <- <-]].
Qed.

Lemma trimEnd_head (s : string) c r :
  JsString.trimEnd s = String c r → ∃ r0, s = String c r0.
Proof.
  destruct s as [| d s]; simpl; [done |].
  destruct (JsString.trimEnd s).
  - destruct (JsString.isWhiteSpace d); [done |]. intros [= <- <-]. by eexists.
  - intros [= <- <-]. by eexists.
Qed.

Lemma trimStart_fixed (s : string) :
  (∀ c r, s = String c r → JsString.isWhiteSpace c = false) →
  JsString.trimStart s = s.
Proof.
  destruct s as [| c r]; [done |]. intros H. simpl.
  by rewrite (H c r eq_refl).
Qed.

Lemma trimEnd_idemp (s : string) :
  JsString.trimEnd (JsString.trimEnd s) = JsString.trimEnd s.
Proof.
  induction s as [| c s IH]; [done |]. simpl.
  destruct (JsString.trimEnd s) as [| d r] eqn:Ht.
  - destruct (JsString.isWhiteSpace c) eqn:Hc; [done |]. simpl. by rewrite Hc.
  - change (JsString.trimEnd (String c (String d r)))
      with (match JsString.trimEnd (String d r) with
            | EmptyString => if JsString.isWhiteSpace c then EmptyString
                             else String c EmptyString
            | r' => String c r'
            end).
    by rewrite IH.
Qed.

(** Trimming a trimmed word changes nothing. *)
Lemma trim_idemp (s : string) : JsString.trim (JsString.trim s) = JsString.trim s.
Proof.
  unfold JsString.trim.
  rewrite (trimStart_fixed (JsString.trimEnd (JsString.trimStart s))).
  - apply trimEnd_idemp.
  - intros c r Ht. apply trimEnd_head in Ht as [r0 Ht]. by eapply trimStart_head.
Qed.

(** C10. In a reachable store, a submission to a playing game that passes
    the first-letter check hands the whole submitted word, upper-cased and
    not trimmed, to the round resolver, while the check itself reads the
    trimmed word and so gives the same letter for the word and for the
    trimmed word.  Whenever the game goes on to a next round, which it does
    exactly when the round counter is below 5, the upper-cased word is
    stored as the new current word with its white space: a white-space
    character at its start is still at the start of the stored word, and a
    white-space character at its end is the letter the next round
    requires. *)
Theorem submitWord_stores_untrimmed st gameId userId word now u game :
  reachable st →
  games st !! gameId = Some game →
  Game.status game = playing →
  firstChar word = lastChar game →
  ∃ game',
    games (snd (submitWord st gameId userId word now u)) !! gameId = Some game'
    ∧ game' = endRoundGame game (Some (JsString.toUpperCase word)) now u
    ∧ firstChar word = JsString.toUpperCase (JsString.charAt0 (JsString.trim word))
    ∧ firstChar (JsString.trim word) = firstChar word
    ∧ (Game.status game' = playing ↔ Game.round game < 5)
    ∧ (Game.status game' = playing →
       Game.currentWord game' = JsString.toUpperCase word
       ∧ (∀ c r, word = String c r →
                 JsString.isWhiteSpace c = true →
                 ∃ r', Game.currentWord game' = String c r')
       ∧ (∀ w c, word = w +:+ String c EmptyString →
                 JsString.isWhiteSpace c = true →
                 lastChar game' = String c EmptyString)).
Proof.
  intros Hst Hg Hs Heq. apply reachable_wf in Hst.
  assert (Hword : JsString.toUpperCase word ≠ EmptyString).
  { apply truthy_nonempty. rewrite toUpperCase_truthy. apply truthy_nonempty.
    apply firstChar_truthy. rewrite Heq. apply lastChar_truthy.
    by eapply wf_word. }
  rewrite (submitWord_accepted _ _ _ _ _ _ game) by done. simpl.
  exists (wonRound game (JsString.toUpperCase word) now).
  rewrite lookup_insert_eq, endRoundGame_won by done.
  assert (Htrim : firstChar (JsString.trim word) = firstChar word)
    by (unfold firstChar; by rewrite trim_idemp).
  destruct (Z.lt_ge_cases (Game.round game) 5) as [Hr | Hr].
  - rewrite wonRound_open by done. simpl.
    split_and!; try done. intros _. split_and!; try done.
    + intros c r -> Hc. simpl. rewrite (upperChar_whiteSpace c Hc). by eexists.
    + intros w c -> Hc. unfold lastChar. cbn [Game.currentWord].
      rewrite toUpperCase_app.
      change (JsString.toUpperCase (String c EmptyString))
        with (String (JsString.upperChar c) EmptyString).
      rewrite sliceLast_snoc. cbn [JsString.toUpperCase].
      by rewrite !(upperChar_whiteSpace c Hc).
  - rewrite wonRound_last by done. simpl.
    split_and!; try done. split; [done | lia].
Qed.

(** ** Reading a game *)

(** The bot does not move in a round that has just begun. *)
Lemma processBotMove_new_round st gameId now uBot u game :
  games st !! gameId = Some game →
  Game.roundEndsAt game = Some (now + 5000) →
  processBotMove st gameId now uBot u = st.
Proof.
  intros Hg He. unfold processBotMove. rewrite Hg, He.
  destruct (_ || _); [done |].
  replace (now + 5000 - now) with 5000 by lia. done.
Qed.

Lemma endRoundGame_timeout game now u :
  unit_draw u →
  Game.status game = playing →
  let game' := endRoundGame game None now u in
  (Game.round game < 5 →
     Game.round game' = Game.round game + 1
     ∧ In (Game.currentWord game') backupWords
     ∧ Game.status game' = playing
     ∧ Game.roundEndsAt game' = Some (now + 5000))
  ∧ (5 ≤ Game.round game →
     Game.status game' = finished ∧ Game.roundEndsAt game' = None).
Proof.
  intros Hu Hs. unfold endRoundGame. split; intros Hr.
  - rewrite (proj2 (Z.leb_gt _ _) Hr).
    cbn [Game.round Game.currentWord Game.status Game.roundEndsAt].
    split_and!; try done. by apply pickWord_In.
  - by rewrite (proj2 (Z.leb_le _ _) Hr).
Qed.

(** C7. In a reachable store, reading a playing game whose round expiry has
    passed resolves the round as a timeout before the view is built: the
    view shows the resolved game, no player record changes, and the game
    moves one round further with one of the five backup words and an expiry
    five seconds from now, or, when its round counter had reached 5,
    becomes finished with its expiry cleared. *)
Theorem getGame_timeout st id now uTimeout uBot u game t :
  reachable st →
  games st !! id = Some game →
  Game.status game = playing →
  Game.roundEndsAt game = Some t →
  t < now →
  unit_draw uTimeout →
  ∃ game',
    getGame st id now uTimeout uBot u
    = (Some (GameState.mk game' (playersWithNames st id)),
       set_games st (<[id := game']> (games st)))
    ∧ players (snd (getGame st id now uTimeout uBot u)) = players st
    ∧ length backupWords = 5%nat
    ∧ (Game.round game < 5 →
         Game.round game' = Game.round game + 1
         ∧ In (Game.currentWord game') backupWords
         ∧ Game.status game' = playing
         ∧ Game.roundEndsAt game' = Some (now + 5000))
    ∧ (5 ≤ Game.round game →
         Game.status game' = finished ∧ Game.roundEndsAt game' = None).
Proof.
  intros Hst Hg Hs He Ht Hu. apply reachable_wf in Hst.
  pose proof (endRoundGame_timeout game now uTimeout Hu Hs) as [Hopen Hlast].
  set (game' := endRoundGame game None now uTimeout) in *.
  assert (Hget : getGame st id now uTimeout uBot u
                 = (Some (GameState.mk game' (playersWithNames st id)),
                    set_games st (<[id := game']> (games st)))).
  { unfold getGame. rewrite Hg, He.
    rewrite (bool_decide_eq_true_2 _ Hs).
    rewrite (proj2 (Z.ltb_lt _ _) Ht). cbn [andb].
    rewrite endRound_own_key by (by eapply wf_game_id). fold game'.
    set (st1 := set_games st (<[id := game']> (games st))).
    assert (H1 : games st1 !! id = Some game')
      by (unfold st1; simpl; by rewrite lookup_insert_eq).
    assert (Hc : current st1 id game = game') by (unfold current; by rewrite H1).
    rewrite Hc.
    assert (Hbot : (if bool_decide (Game.status game' = playing)
                       && Game.isBotGame game'
                    then processBotMove st1 id now uBot u else st1) = st1).
    { destruct (bool_decide (Game.status game' = playing)) eqn:Hp; [| done].
      destruct (Game.isBotGame game'); [| done]. cbn [andb].
      apply bool_decide_eq_true in Hp.
      destruct (Z.lt_ge_cases (Game.round game) 5) as [Hr | Hr].
      - eapply processBotMove_new_round; [done |]. by apply Hopen.
      - destruct (Hlast Hr) as [Hf _]. congruence. }
    rewrite Hbot, Hc. done. }
  exists game'. split_and!; try done. by rewrite Hget.
Qed.

(** ** Joining a game *)

(** C1, as the code has it. In a reachable store, when a user who is
    already enrolled in a waiting game with fewer than four players joins
    it again, [joinGame] returns the record of that user's player, which is
    stored under its id and enrolled in the game, and leaves the store, and
    with it the player count of the game, unchanged. *)
Theorem joinGame_rejoin st gameId userId game :
  reachable st →
  games st !! gameId = Some game →
  Game.status game = waiting →
  enrolled st gameId userId →
  (length (playerIdsOf st gameId) < 4)%nat →
  ∃ p, joinGame st gameId userId = (Return p, st)
       ∧ Player.userId p = userId
       ∧ Player.id p ∈ playerIdsOf st gameId
       ∧ players st !! Player.id p = Some p
       ∧ playerIdsOf (snd (joinGame st gameId userId)) gameId
         = playerIdsOf st gameId.
Proof.
  intros Hst Hg Hs Hen Hlen. apply reachable_wf in Hst.
  apply enrolled_findPlayer in Hen as [[pid p] Hf].
  assert (Hj : joinGame st gameId userId = (Return p, st)).
  { unfold joinGame. rewrite Hg, bool_decide_eq_true_2 by done. cbn [negb].
    rewrite (proj2 (Nat.leb_gt _ _) Hlen), Hf.
    apply findPlayer_Some in Hf as (_ & Hp & _).
    destruct (wf_player_id _ Hst _ _ Hp) as [_ Hpos].
    by rewrite (proj2 (Z.eqb_neq _ _)) by lia. }
  apply findPlayer_Some in Hf as (Hin & Hp & Hu).
  destruct (wf_player_id _ Hst _ _ Hp) as [Hid _].
  exists p. rewrite Hj, Hid. done.
Qed.

Lemma gamePlayers_submitWord st gameId userId word now u :
  gamePlayers (snd (submitWord st gameId userId word now u)) = gamePlayers st.
Proof.
  unfold submitWord. destruct (games st !! gameId); [| done].
  destruct (negb _); [done |]. destruct (negb _); [done |]. simpl.
  by destruct (findPlayer _ _ _) as [[? ?] |].
Qed.

Lemma gamePlayers_processBotMove st gameId now uBot u :
  gamePlayers (processBotMove st gameId now uBot u) = gamePlayers st.
Proof.
  unfold processBotMove. destruct (games st !! gameId); [| done].
  destruct (_ || _); [done |]. destruct (_ && _); [| done].
  destruct (negb _); [| done]. apply gamePlayers_submitWord.
Qed.

Lemma gamePlayers_getGame st id now uTimeout uBot u :
  gamePlayers (snd (getGame st id now uTimeout uBot u)) = gamePlayers st.
Proof.
  unfold getGame. destruct (games st !! id) as [game |]; [| done]. cbn [snd].
  set (st1 := if _ && _ then _ else st).
  assert (H1 : gamePlayers st1 = gamePlayers st)
    by (unfold st1; by destruct (_ && _)).
  clearbody st1. destruct (_ && _); [| done].
  by rewrite gamePlayers_processBotMove.
Qed.

Lemma atMostFour_enroll st gameId userId :
  atMostFour st → (length (playerIdsOf st gameId) < 4)%nat →
  atMostFour (snd (enroll st gameId userId)).
Proof.
  intros H Hlen k. rewrite playerIdsOf_enroll.
  destruct (decide _); [| apply H]. rewrite length_app. simpl. lia.
Qed.

Lemma atMostFour_same st st' :
  gamePlayers st' = gamePlayers st → atMostFour st → atMostFour st'.
Proof. intros Heq H k. unfold playerIdsOf. rewrite Heq. apply H. Qed.

Lemma atMostFour_joinGame st gameId userId :
  atMostFour st → atMostFour (snd (joinGame st gameId userId)).
Proof.
  intros H. unfold joinGame.
  destruct (games st !! gameId); [| done].
  destruct (negb _); [done |].
  destruct (4 <=? length (playerIdsOf st gameId))%nat eqn:Hlen; [done |].
  apply Nat.leb_gt in Hlen.
  destruct (findPlayer _ _ _) as [[existing p] |].
  - destruct (negb _); [done |]. by apply atMostFour_enroll.
  - by apply atMostFour_enroll.
Qed.

(** A new game has its host enrolled, and the bot after the host. *)
Lemma createGame_players st id hostId isBotGame :
  playerIdsOf (snd (createGame st id hostId isBotGame)) id
  = if isBotGame then [playerIdCounter st; playerIdCounter st + 1]
    else [playerIdCounter st].
Proof.
  rewrite createGame_eq. cbn [snd].
  assert (Hl : playerIdsOf (createGameStore st id hostId isBotGame) id = []).
  { unfold playerIdsOf. simpl. by rewrite lookup_insert_eq. }
  destruct isBotGame.
  - by rewrite !playerIdsOf_enroll, !decide_True, Hl.
  - by rewrite playerIdsOf_enroll, decide_True, Hl.
Qed.

Lemma atMostFour_createGame st id hostId isBotGame :
  atMostFour st → atMostFour (snd (createGame st id hostId isBotGame)).
Proof.
  intros H k. destruct (decide (id = k)) as [<- | Hne].
  - rewrite createGame_players. destruct isBotGame; simpl; lia.
  - rewrite createGame_eq. cbn [snd].
    assert (H1 : playerIdsOf (createGameStore st id hostId isBotGame) k
                 = playerIdsOf st k).
    { unfold playerIdsOf. simpl. by rewrite lookup_insert_ne. }
    destruct isBotGame.
    + rewrite !playerIdsOf_enroll, !decide_False, H1 by done. apply H.
    + rewrite playerIdsOf_enroll, decide_False, H1 by done. apply H.
Qed.

Lemma atMostFour_exec st c : atMostFour st → atMostFour (exec st c).
Proof.
  intros H. destruct c; simpl.
  - done.
  - done.
  - by apply atMostFour_createGame.
  - eapply atMostFour_same; [apply gamePlayers_getGame | done].
  - by apply atMostFour_joinGame.
  - eapply atMostFour_same; [| done]. unfold startGame.
    by destruct (games st !! gameId).
  - eapply atMostFour_same; [apply gamePlayers_submitWord | done].
  - eapply atMostFour_same; [apply gamePlayers_processBotMove | done].
Qed.

(** C5, as the code has it. Every game of a reachable store has at most
    four enrolled players, and every call keeps that bound; a new game
    starts with its host, and with the bot after the host in a bot game.
    Joining a game that has four players always fails and leaves the
    store unchanged: with "Game full" when the game is waiting, with "Game
    already started" when it is not. *)
Theorem player_bound st :
  (reachable st → atMostFour st)
  ∧ (atMostFour st → ∀ c, atMostFour (exec st c))
  ∧ (∀ id hostId isBotGame,
       (0 < length (playerIdsOf (snd (createGame st id hostId isBotGame)) id) ≤ 2)%nat)
  ∧ (∀ gameId userId game,
       games st !! gameId = Some game →
       (4 ≤ length (playerIdsOf st gameId))%nat →
       joinGame st gameId userId
       = (Throw (if bool_decide (Game.status game = waiting)
                 then "Game full" else "Game already started"), st)).
Proof.
  split_and!.
  - intros Hst k. by apply wf_count, reachable_wf.
  - intros H c. by apply atMostFour_exec.
  - intros id hostId isBotGame. rewrite createGame_players.
    destruct isBotGame; simpl; lia.
  - intros gameId userId game Hg Hlen. unfold joinGame. rewrite Hg.
    destruct (bool_decide (Game.status game = waiting)); [| done]. cbn [negb].
    by rewrite (proj2 (Nat.leb_le _ _) Hlen).
Qed.

(** ** Round expiry and status *)

Lemma games_joinGame st gameId userId :
  games (snd (joinGame st gameId userId)) = games st.
Proof.
  unfold joinGame. destruct (games st !! gameId); [| done].
  destruct (negb _); [done |]. destruct (4 <=? _)%nat; [done |].
  destruct (findPlayer _ _ _) as [[existing p] |]; [| done].
  by destruct (negb _).
Qed.

Lemma games_createGame st id hostId isBotGame :
  games (snd (createGame st id hostId isBotGame))
  = <[id := Game.mk id hostId waiting 0 EmptyString None isBotGame]> (games st).
Proof. rewrite createGame_eq. by destruct isBotGame. Qed.

Lemma expiry_endRound st key game w now u :
  expiryMatchesStatus st → Game.status game = playing →
  expiryMatchesStatus (endRound st key game w now u).
Proof.
  intros H Hs k g. unfold endRound. simpl.
  rewrite lookup_insert. destruct (decide _).
  { intros [= <-]. by apply endRoundGame_expiry. }
  rewrite lookup_insert. destruct (decide _); [| by apply H].
  intros [= <-]. by apply endRoundGame_expiry.
Qed.

Lemma expiry_submitWord st gameId userId word now u :
  expiryMatchesStatus st →
  expiryMatchesStatus (snd (submitWord st gameId userId word now u)).
Proof.
  intros H. unfold submitWord.
  destruct (games st !! gameId) as [game |]; [| done].
  destruct (bool_decide (Game.status game = playing)) eqn:Hs; [| done].
  apply bool_decide_eq_true in Hs. cbn [negb].
  destruct (negb _); [done |]. cbn [snd].
  apply expiry_endRound; [| done].
  by destruct (findPlayer _ _ _) as [[? ?] |].
Qed.

Lemma expiry_processBotMove st gameId now uBot u :
  expiryMatchesStatus st →
  expiryMatchesStatus (processBotMove st gameId now uBot u).
Proof.
  intros H. unfold processBotMove. destruct (games st !! gameId); [| done].
  destruct (_ || _); [done |]. destruct (_ && _); [| done].
  destruct (negb _); [| done]. by apply expiry_submitWord.
Qed.

Lemma expiry_getGame st id now uTimeout uBot u :
  expiryMatchesStatus st →
  expiryMatchesStatus (snd (getGame st id now uTimeout uBot u)).
Proof.
  intros H. unfold getGame. destruct (games st !! id) as [game |]; [| done].
  cbn [snd]. set (st1 := if _ && _ then _ else st).
  assert (H1 : expiryMatchesStatus st1).
  { unfold st1. destruct (bool_decide (Game.status game = playing)) eqn:Hs; [| done].
    apply bool_decide_eq_true in Hs. cbn [andb].
    destruct (match Game.roundEndsAt game with Some _ => _ | None => _ end); [| done].
    by apply expiry_endRound. }
  clearbody st1. destruct (_ && _); [| done]. by apply expiry_processBotMove.
Qed.

Lemma expiry_exec st c : expiryMatchesStatus st → expiryMatchesStatus (exec st c).
Proof.
  intros H. destruct c; simpl.
  - done.
  - done.
  - intros k g. rewrite games_createGame, lookup_insert.
    destruct (decide _); [by intros [= <-] | by apply H].
  - by apply expiry_getGame.
  - intros k g. rewrite games_joinGame. by apply H.
  - unfold startGame. destruct (games st !! gameId); [| done].
    intros k g. simpl. rewrite lookup_insert.
    destruct (decide _); [by intros [= <-] | by apply H].
  - by apply expiry_submitWord.
  - by apply expiry_processBotMove.
Qed.

(** C8. In every reachable store the round expiry of every game is set if
    and only if the game is playing, and every call of the store keeps it
    so: [createUser], [createGame], [joinGame], [startGame], [submitWord],
    [getGame] and [processBotMove], whatever their arguments. *)
Theorem expiry_iff_playing st :
  (reachable st → expiryMatchesStatus st)
  ∧ (expiryMatchesStatus st → ∀ c, expiryMatchesStatus (exec st c)).
Proof.
  split.
  - induction 1 as [| st c _ IH _]; [done | by apply expiry_exec].
  - intros H c. by apply expiry_exec.
Qed.

(** ** Status transitions *)

Lemma forward_refl game : forward game game.
Proof. split; [lia | done]. Qed.

Lemma forwardAt_same gameId st st' : games st' = games st → forwardAt gameId st st'.
Proof. intros Heq game Hg. exists game. rewrite Heq. split; [done | apply forward_refl]. Qed.

Lemma forwardAt_trans gameId st1 st2 st3 :
  forwardAt gameId st1 st2 → forwardAt gameId st2 st3 → forwardAt gameId st1 st3.
Proof.
  intros H12 H23 g1 Hg1.
  destruct (H12 _ Hg1) as (g2 & Hg2 & Hle12 & Hf12).
  destruct (H23 _ Hg2) as (g3 & Hg3 & Hle23 & Hf23).
  exists g3. split; [done |]. split; [lia |].
  intros Hf. rewrite <- (Hf12 Hf). apply Hf23. by rewrite (Hf12 Hf).
Qed.

Lemma forwardAt_insert gameId st st' key game game' :
  games st !! key = Some game →
  games st' = <[key := game']> (games st) →
  forward game game' →
  forwardAt gameId st st'.
Proof.
  intros Hg Heq Hf g Hgid. rewrite Heq, lookup_insert.
  destruct (decide (key = gameId)) as [-> |].
  - exists game'. split; [done |]. by replace g with game by congruence.
  - exists g. split; [done | apply forward_refl].
Qed.

Lemma forward_endRoundGame game w now u :
  Game.status game = playing → forward game (endRoundGame game w now u).
Proof.
  intros Hs. unfold forward, endRoundGame.
  destruct (5 <=? Game.round game); simpl; rewrite Hs; simpl; split; (lia || done).
Qed.

Lemma forwardAt_endRound gameId st key game w now u :
  wf_store st → games st !! key = Some game → Game.status game = playing →
  forwardAt gameId st (endRound st key game w now u).
Proof.
  intros Hwf Hg Hs. eapply forwardAt_insert; [done | | by apply forward_endRoundGame].
  by rewrite endRound_own_key by (by eapply wf_game_id).
Qed.

Lemma forwardAt_submitWord gameId st k userId word now u :
  wf_store st → forwardAt gameId st (snd (submitWord st k userId word now u)).
Proof.
  intros Hwf. unfold submitWord.
  destruct (games st !! k) as [game |] eqn:Hg; [| by apply forwardAt_same].
  destruct (bool_decide (Game.status game = playing)) eqn:Hs;
    [| by apply forwardAt_same].
  apply bool_decide_eq_true in Hs. cbn [negb].
  destruct (negb _); [by apply forwardAt_same |]. cbn [snd].
  set (st1 := match findPlayer _ _ _ with Some _ => _ | None => st end).
  assert (H1 : games st1 = games st)
    by (unfold st1; by destruct (findPlayer _ _ _) as [[? ?] |]).
  eapply forwardAt_insert; [done | | by apply forward_endRoundGame].
  unfold endRound. simpl. rewrite H1.
  assert (Game.id (endRoundGame game (Some (JsString.toUpperCase word)) now u) = k)
    as ->; [| by rewrite insert_insert_eq].
  transitivity (Game.id game); [| by eapply wf_game_id].
  unfold endRoundGame. by destruct (5 <=? Game.round game).
Qed.

Lemma forwardAt_processBotMove gameId st k now uBot u :
  wf_store st → forwardAt gameId st (processBotMove st k now uBot u).
Proof.
  intros Hwf. unfold processBotMove.
  destruct (games st !! k); [| by apply forwardAt_same].
  destruct (_ || _); [by apply forwardAt_same |].
  destruct (_ && _); [| by apply forwardAt_same].
  destruct (negb _); [| by apply forwardAt_same].
  by apply forwardAt_submitWord.
Qed.

Lemma forwardAt_getGame gameId st id now uTimeout uBot u :
  wf_store st → unit_draw uTimeout →
  forwardAt gameId st (snd (getGame st id now uTimeout uBot u)).
Proof.
  intros Hwf Hu. unfold getGame.
  destruct (games st !! id) as [game |] eqn:Hg; [| by apply forwardAt_same].
  cbn [snd]. set (st1 := if _ && _ then _ else st).
  assert (H1 : wf_store st1 ∧ forwardAt gameId st st1).
  { unfold st1. destruct (bool_decide (Game.status game = playing)) eqn:Hs;
      [| split; [done | by apply forwardAt_same]].
    apply bool_decide_eq_true in Hs. cbn [andb].
    destruct (match Game.roundEndsAt game with Some _ => _ | None => _ end);
      [| split; [done | by apply forwardAt_same]].
    split; [by apply wf_endRound | by apply forwardAt_endRound]. }
  clearbody st1. destruct H1 as [Hwf1 Hf1].
  destruct (_ && _); [| done].
  eapply forwardAt_trans; [done | by apply forwardAt_processBotMove].
Qed.

Lemma forwardAt_exec gameId st c :
  wf_store st → draws_ok c → ¬ restarts gameId c → forwardAt gameId st (exec st c).
Proof.
  intros Hwf Hc Hr. destruct c; simpl in *.
  - by apply forwardAt_same.
  - by apply forwardAt_same.
  - intros g Hg. exists g. rewrite games_createGame, lookup_insert_ne by done.
    split; [done | apply forward_refl].
  - destruct Hc as (? & ? & ?). by apply forwardAt_getGame.
  - apply forwardAt_same, games_joinGame.
  - unfold startGame. destruct (games st !! gameId0); [| by apply forwardAt_same].
    intros g Hg. exists g. simpl. rewrite lookup_insert_ne by done.
    split; [done | apply forward_refl].
  - by apply forwardAt_submitWord.
  - by apply forwardAt_processBotMove.
Qed.

(** C2, as the code has it. From a reachable store, along any sequence of
    calls other than [startGame] on the game and [createGame] drawing the
    game's code again, the status of a game only moves forward in the order
    waiting, playing, finished, and a game that is finished stays the same
    record: finished, with its round expiry null.  [startGame] is the
    exception: it sets any existing game, a finished one too, to playing
    with a round expiry. *)
Theorem status_forward st gameId game cs :
  reachable st →
  games st !! gameId = Some game →
  Forall draws_ok cs →
  Forall (λ c, ¬ restarts gameId c) cs →
  (∃ game', games (run st cs) !! gameId = Some game'
     ∧ rank (Game.status game) ≤ rank (Game.status game')
     ∧ (Game.status game = finished →
        game' = game ∧ Game.status game' = finished
        ∧ Game.roundEndsAt game' = None))
  ∧ (∀ now u, ∃ game',
       games (exec st (StartGame gameId now u)) !! gameId = Some game'
       ∧ Game.status game' = playing
       ∧ Game.roundEndsAt game' = Some (now + 5000)).
Proof.
  intros Hst Hg Hcs Hrs. split.
  - assert (Hfw : ∃ game', games (run st cs) !! gameId = Some game'
                           ∧ forward game game').
    { revert st game Hst Hg Hrs.
      induction Hcs as [| c cs Hc _ IH]; intros st game Hst Hg Hrs.
      - exists game. split; [done | apply forward_refl].
      - apply Forall_cons in Hrs as [Hr Hrs]. simpl.
        destruct (forwardAt_exec gameId st c (reachable_wf _ Hst) Hc Hr _ Hg)
          as (g1 & Hg1 & Hle1 & Hf1).
        destruct (IH (exec st c) g1 (reachable_call _ _ Hst Hc) Hg1 Hrs)
          as (g2 & Hg2 & Hle2 & Hf2).
        exists g2. split; [done |]. split; [lia |].
        intros Hf. rewrite <- (Hf1 Hf). apply Hf2. by rewrite (Hf1 Hf). }
    destruct Hfw as (game' & Hg' & Hle & Hf).
    exists game'. split_and!; try done.
    intros Hfin. rewrite (Hf Hfin). split_and!; try done.
    destruct (Game.roundEndsAt game) eqn:He; [| done].
    assert (Game.status game = playing); [| congruence].
    apply (wf_expiry _ (reachable_wf _ Hst) _ _ Hg). by rewrite He.
  - intros now u. simpl. unfold startGame. rewrite Hg. simpl.
    rewrite lookup_insert_eq. by eexists.
Qed.

(** ** The scenarios are reachable *)

(** Closes [Forall draws_ok] on a list of calls with constant draws. *)
Ltac draws := repeat constructor; done.

Lemma reachable_lobby : reachable lobby.
Proof. apply reachable_run; [constructor | draws]. Qed.

Lemma reachable_lobbyFull : reachable lobbyFull.
Proof. apply reachable_run; [apply reachable_lobby | draws]. Qed.

Lemma reachable_startedFull : reachable startedFull.
Proof. apply reachable_run; [apply reachable_lobbyFull | draws]. Qed.

Lemma reachable_roundOne : reachable roundOne.
Proof. apply reachable_run; [constructor | draws]. Qed.

Lemma reachable_roundFive : reachable roundFive.
Proof. apply reachable_run; [apply reachable_roundOne | draws]. Qed.

Lemma reachable_gameOver : reachable gameOver.
Proof. apply reachable_run; [apply reachable_roundFive | draws]. Qed.

Example roundOne_game :
  games roundOne !! "ABC123"
  = Some (Game.mk "ABC123" 1 playing 1 "MUSIC" (Some 6000) true).
Proof. vm_compute. reflexivity. Qed.

Example roundFive_game :
  games roundFive !! "ABC123"
  = Some (Game.mk "ABC123" 1 playing 5 "STORM" (Some 30000) true).
Proof. vm_compute. reflexivity. Qed.

Example gameOver_game :
  games gameOver !! "ABC123"
  = Some (Game.mk "ABC123" 1 finished 5 "STORM" None true).
Proof. vm_compute. reflexivity. Qed.

Example lobbyFull_players : playerIdsOf lobbyFull "LOBBY1" = [1; 2; 3; 4].
Proof. vm_compute. reflexivity. Qed.

(** ** The theorems at the scenarios *)

(** Rejoining a waiting game of four fails: the capacity check of
    [joinGame] comes before the search for the user's player. *)
Lemma joinGame_rejoin_full :
  reachable lobbyFull
  ∧ games lobbyFull !! "LOBBY1" = Some (Game.mk "LOBBY1" 1 waiting 0 "" None false)
  ∧ enrolled lobbyFull "LOBBY1" 1
  ∧ joinGame lobbyFull "LOBBY1" 1 = (Throw "Game full", lobbyFull)
  ∧ ¬ (∃ p, fst (joinGame lobbyFull "LOBBY1" 1) = Return p).
Proof.
  assert (Hj : joinGame lobbyFull "LOBBY1" 1 = (Throw "Game full", lobbyFull))
    by (vm_compute; reflexivity).
  split_and!.
  - apply reachable_lobbyFull.
  - vm_compute. reflexivity.
  - apply enrolled_findPlayer. vm_compute. by eexists.
  - exact Hj.
  - rewrite Hj. by intros [p Hp].
Qed.

Lemma joinGame_rejoin_witness :
  ∃ p, joinGame lobby "LOBBY1" 2 = (Return p, lobby) ∧ Player.id p = 2.
Proof.
  destruct (joinGame_rejoin lobby "LOBBY1" 2
              (Game.mk "LOBBY1" 1 waiting 0 "" None false))
    as (p & Hj & Hu & Hin & Hp & Hn).
  - apply reachable_lobby.
  - vm_compute. reflexivity.
  - reflexivity.
  - apply enrolled_findPlayer. vm_compute. by eexists.
  - vm_compute. lia.
  - exists p. split; [exact Hj |].
    assert (Hj' : joinGame lobby "LOBBY1" 2
                  = (Return (Player.mk 2 "LOBBY1" 2 0 false), lobby))
      by (vm_compute; reflexivity).
    rewrite Hj' in Hj. by injection Hj as <-.
Defined.

(** A finished game is set to playing again by [startGame]. *)
Lemma startGame_after_finish :
  reachable gameOver
  ∧ games gameOver !! "ABC123"
    = Some (Game.mk "ABC123" 1 finished 5 "STORM" None true)
  ∧ draws_ok (StartGame "ABC123" 40000 0)
  ∧ games (exec gameOver (StartGame "ABC123" 40000 0)) !! "ABC123"
    = Some (Game.mk "ABC123" 1 playing 1 "APPLE" (Some 45000) true).
Proof.
  split_and!.
  - apply reachable_gameOver.
  - vm_compute. reflexivity.
  - draws.
  - vm_compute. reflexivity.
Qed.

Lemma status_forward_witness :
  ∃ game',
    games (run gameOver [JoinGame "ABC123" 2; SubmitWord "ABC123" 1 "moon" 32000 0;
                         GetGame "ABC123" 90000 0 (1 # 2) 0]) !! "ABC123"
    = Some game'
    ∧ Game.status game' = finished ∧ Game.roundEndsAt game' = None.
Proof.
  destruct (status_forward gameOver "ABC123"
              (Game.mk "ABC123" 1 finished 5 "STORM" None true)
              [JoinGame "ABC123" 2; SubmitWord "ABC123" 1 "moon" 32000 0;
               GetGame "ABC123" 90000 0 (1 # 2) 0])
    as [(game' & Hg & _ & Hf) _].
  - apply reachable_gameOver.
  - vm_compute. reflexivity.
  - draws.
  - repeat constructor; simpl; tauto.
  - exists game'. split; [exact Hg |].
    destruct Hf as (_ & Hs & He); [reflexivity |]. exact (conj Hs He).
Defined.

Lemma submitWord_wrong_letter_witness :
  submitWord roundOne "ABC123" 1 " dog" 1500 0
  = (SubmitResult.mk false (Some "Word must start with 'C'"), roundOne).
Proof.
  apply (submitWord_wrong_letter roundOne "ABC123" 1 " dog" 1500 0
           (Game.mk "ABC123" 1 playing 1 "MUSIC" (Some 6000) true)).
  - vm_compute. reflexivity.
  - reflexivity.
  - vm_compute. discriminate.
Defined.

Lemma submitWord_enrolled_witness :
  ∃ p game',
    players (snd (submitWord roundOne "ABC123" 1 " code" 1500 0)) !! 1 = Some p
    ∧ Player.score p = 1
    ∧ games (snd (submitWord roundOne "ABC123" 1 " code" 1500 0)) !! "ABC123"
      = Some game'
    ∧ Game.round game' = 2.
Proof.
  destruct (submitWord_enrolled roundOne "ABC123" 1 " code" 1500 0
              (Game.mk "ABC123" 1 playing 1 "MUSIC" (Some 6000) true))
    as (pid & p & game' & Hin & Hp & Hu & Hr & Hps & Hq & Hgs & Hopen & _).
  - apply reachable_roundOne.
  - vm_compute. reflexivity.
  - reflexivity.
  - vm_compute. reflexivity.
  - apply enrolled_findPlayer. vm_compute. by eexists.
  - exists (Player.mk 1 "ABC123" 1 1 false), game'. rewrite Hgs, lookup_insert_eq.
    split_and!; [vm_compute; reflexivity | done | done |].
    by apply Hopen.
Defined.

(** Joining a started game of four fails with "Game already started", not
    with "Game full": the status check of [joinGame] comes first. *)
Lemma joinGame_started_full :
  reachable startedFull
  ∧ games startedFull !! "LOBBY1"
    = Some (Game.mk "LOBBY1" 1 playing 1 "APPLE" (Some 5000) false)
  ∧ playerIdsOf startedFull "LOBBY1" = [1; 2; 3; 4]
  ∧ joinGame startedFull "LOBBY1" 5 = (Throw "Game already started", startedFull)
  ∧ fst (joinGame startedFull "LOBBY1" 5) ≠ Throw "Game full".
Proof.
  assert (Hj : joinGame startedFull "LOBBY1" 5
               = (Throw "Game already started", startedFull))
    by (vm_compute; reflexivity).
  split_and!.
  - apply reachable_startedFull.
  - vm_compute. reflexivity.
  - vm_compute. reflexivity.
  - exact Hj.
  - rewrite Hj. simpl. discriminate.
Qed.

Lemma player_bound_witness :
  atMostFour lobbyFull
  ∧ atMostFour (exec lobbyFull (JoinGame "LOBBY1" 5))
  ∧ joinGame lobbyFull "LOBBY1" 5 = (Throw "Game full", lobbyFull).
Proof.
  destruct (player_bound lobbyFull) as (Hreach & Hstep & _ & Hfull).
  pose proof (Hreach reachable_lobbyFull) as Hb.
  split; [exact Hb |]. split; [exact (Hstep Hb (JoinGame "LOBBY1" 5)) |].
  apply (Hfull "LOBBY1" 5 (Game.mk "LOBBY1" 1 waiting 0 "" None false)).
  - vm_compute. reflexivity.
  - vm_compute. lia.
Defined.

Lemma startGame_spec_witness :
  ∃ word, In word startWords
    ∧ games (snd (startGame lobby "LOBBY1" 1000 (7 # 8))) !! "LOBBY1"
      = Some (Game.mk "LOBBY1" 1 playing 1 word (Some 6000) false).
Proof.
  destruct (startGame_spec lobby "LOBBY1" 1000 (7 # 8)) as (_ & _ & Hsome).
  - split; [vm_compute; discriminate | reflexivity].
  - destruct (Hsome (Game.mk "LOBBY1" 1 waiting 0 "" None false))
      as (word & Hin & _ & Heq); [vm_compute; reflexivity |].
    exists word. split; [exact Hin |].
    rewrite Heq. simpl. apply lookup_insert_eq.
Defined.

Lemma getGame_timeout_witness :
  ∃ game',
    games (snd (getGame roundOne "ABC123" 7000 (3 # 5) (1 # 2) 0)) !! "ABC123"
    = Some game'
    ∧ Game.round game' = 2
    ∧ In (Game.currentWord game') backupWords
    ∧ players (snd (getGame roundOne "ABC123" 7000 (3 # 5) (1 # 2) 0))
      = players roundOne.
Proof.
  destruct (getGame_timeout roundOne "ABC123" 7000 (3 # 5) (1 # 2) 0
              (Game.mk "ABC123" 1 playing 1 "MUSIC" (Some 6000) true) 6000)
    as (game' & Heq & Hps & _ & Hopen & _).
  - apply reachable_roundOne.
  - vm_compute. reflexivity.
  - reflexivity.
  - reflexivity.
  - lia.
  - split; [vm_compute; discriminate | reflexivity].
  - destruct Hopen as (Hr & Hw & _ & _); [simpl; lia |].
    exists game'. rewrite Heq. simpl. rewrite lookup_insert_eq.
    split; [reflexivity |]. split; [exact Hr |]. split; [exact Hw | reflexivity].
Defined.

Lemma expiry_iff_playing_witness :
  expiryMatchesStatus roundOne
  ∧ expiryMatchesStatus (exec roundOne (GetGame "ABC123" 7000 (3 # 5) (1 # 2) 0)).
Proof.
  destruct (expiry_iff_playing roundOne) as [Hreach Hstep].
  pose proof (Hreach reachable_roundOne) as He.
  exact (conj He (Hstep He (GetGame "ABC123" 7000 (3 # 5) (1 # 2) 0))).
Defined.

(** At round 5 a valid word of a user who is not enrolled does not advance
    the round and does not become the current word: the game finishes. *)
Lemma submitWord_outsider_round5 :
  reachable roundFive
  ∧ games roundFive !! "ABC123"
    = Some (Game.mk "ABC123" 1 playing 5 "STORM" (Some 30000) true)
  ∧ ¬ enrolled roundFive "ABC123" 7
  ∧ firstChar "moon" = lastChar (Game.mk "ABC123" 1 playing 5 "STORM" (Some 30000) true)
  ∧ fst (submitWord roundFive "ABC123" 7 "moon" 26000 0) = SubmitResult.mk true None
  ∧ games (snd (submitWord roundFive "ABC123" 7 "moon" 26000 0)) !! "ABC123"
    = Some (Game.mk "ABC123" 1 finished 5 "STORM" None true).
Proof.
  split_and!.
  - apply reachable_roundFive.
  - vm_compute. reflexivity.
  - intros Hen. apply enrolled_findPlayer in Hen. vm_compute in Hen.
    by destruct Hen.
  - vm_compute. reflexivity.
  - vm_compute. reflexivity.
  - vm_compute. reflexivity.
Qed.

Lemma submitWord_outsider_witness :
  ∃ game',
    games (snd (submitWord roundOne "ABC123" 7 "cat" 1500 0)) !! "ABC123" = Some game'
    ∧ Game.round game' = 2
    ∧ Game.currentWord game' = "CAT"
    ∧ players (snd (submitWord roundOne "ABC123" 7 "cat" 1500 0)) = players roundOne.
Proof.
  destruct (submitWord_outsider roundOne "ABC123" 7 "cat" 1500 0
              (Game.mk "ABC123" 1 playing 1 "MUSIC" (Some 6000) true))
    as (game' & _ & Hps & Hgs & Hopen & _).
  - apply reachable_roundOne.
  - vm_compute. reflexivity.
  - reflexivity.
  - vm_compute. reflexivity.
  - intros Hen. apply enrolled_findPlayer in Hen. vm_compute in Hen.
    destruct Hen as [x Hx]. discriminate Hx.
  - destruct Hopen as (Hr & Hw & _ & _); [simpl; lia |].
    exists game'. rewrite Hgs, lookup_insert_eq.
    split; [reflexivity |]. split; [exact Hr |]. split; [exact Hw | exact Hps].
Defined.

Lemma submitWord_stores_untrimmed_witness :
  ∃ game',
    games (snd (submitWord roundOne "ABC123" 1 " cat " 1500 0)) !! "ABC123" = Some game'
    ∧ Game.currentWord game' = " CAT "
    ∧ lastChar game' = " ".
Proof.
  destruct (submitWord_stores_untrimmed roundOne "ABC123" 1 " cat " 1500 0
              (Game.mk "ABC123" 1 playing 1 "MUSIC" (Some 6000) true))
    as (game' & Hg & _ & _ & _ & Hnext & Hstored).
  - apply reachable_roundOne.
  - vm_compute. reflexivity.
  - reflexivity.
  - vm_compute. reflexivity.
  - destruct Hstored as (Hw & _ & Hlast); [apply Hnext; simpl; lia |].
    exists game'. split; [exact Hg |]. split; [exact Hw |].
    apply (Hlast " cat" " "%char); reflexivity.
Defined.

(** ** Users, players and enrollment in reachable stores *)

Lemma roster_ok_ext st st' : roster st' = roster st → roster_ok st → roster_ok st'.
Proof.
  unfold roster. intros [= Hu Hp Hg Hc1 Hc2] [].
  split; unfold playerIdsOf in *; rewrite ?Hu, ?Hp, ?Hg, ?Hc1, ?Hc2; assumption.
Qed.

Lemma roster_ok_newStore : roster_ok newStore.
Proof.
  split; unfold playerIdsOf; simpl; try done.
  - intros id. rewrite lookup_empty. split; [by intros [? ?] | lia].
  - intros pid. rewrite lookup_empty. split; [by intros [? ?] | lia].
  - intros k pid. rewrite lookup_empty. simpl. by intros ?%elem_of_nil.
  - intros k. rewrite lookup_empty. constructor.
  - intros k1 k2 pid. rewrite lookup_empty. simpl. by intros ?%elem_of_nil.
Qed.

Lemma roster_ok_createUser st username :
  roster_ok st → roster_ok (snd (createUser st username)).
Proof.
  intros []. split; unfold playerIdsOf in *; simpl; try done.
  - lia.
  - intros id. rewrite lookup_insert. destruct (decide _) as [<- |].
    + split; [lia | by eexists].
    + rewrite ro_users0. lia.
  - intros id u. rewrite lookup_insert. destruct (decide _) as [<- |]; [| by eauto].
    by intros [= <-].
Qed.

Lemma roster_ok_enroll st gameId userId :
  roster_ok st →
  (userId = -1 ∨ ∀ pid p, pid ∈ playerIdsOf st gameId →
                          players st !! pid = Some p → Player.userId p ≠ userId) →
  roster_ok (snd (enroll st gameId userId)).
Proof.
  intros Hok Hnew.
  assert (Hfresh : ∀ k, playerIdCounter st ∉ playerIdsOf st k).
  { intros k Hin. apply (ro_enrolled _ Hok) in Hin. lia. }
  assert (Hnone : players st !! playerIdCounter st = None).
  { apply eq_None_not_Some. rewrite (ro_players _ Hok). lia. }
  assert (Hin' : ∀ k pid, pid ∈ playerIdsOf (snd (enroll st gameId userId)) k →
                 pid ∈ playerIdsOf st k ∨ (pid = playerIdCounter st ∧ k = gameId)).
  { intros k pid. rewrite playerIdsOf_enroll. destruct (decide _) as [<- |]; [| by left].
    intros [? | ->%list_elem_of_singleton]%elem_of_app; [by left | by right]. }
  assert (Hold : ∀ k pid, pid ∈ playerIdsOf st k →
                 players (snd (enroll st gameId userId)) !! pid = players st !! pid).
  { intros k pid Hin. simpl. apply lookup_insert_ne. intros <-. by apply (Hfresh k). }
  destruct Hok. split.
  - simpl. lia.
  - done.
  - done.
  - intros pid. simpl. rewrite lookup_insert. destruct (decide _) as [<- |].
    + split; [lia | by eexists].
    + rewrite ro_players0. lia.
  - intros k pid [Hin | [-> _]]%Hin'; simpl; [| lia].
    apply ro_enrolled0 in Hin. lia.
  - intros k. rewrite playerIdsOf_enroll. destruct (decide _) as [<- |]; [| done].
    apply NoDup_app. split; [done |]. split; [| apply NoDup_singleton].
    intros pid Hin ->%list_elem_of_singleton. by apply (Hfresh gameId).
  - intros k1 k2 pid [H1 | [-> ->]]%Hin' [H2 | [Hp Hk]]%Hin'.
    + by eapply ro_disjoint0.
    + subst. by destruct (Hfresh k1).
    + by destruct (Hfresh k2).
    + done.
  - intros k pid p [Hin | [-> ->]]%Hin'.
    + rewrite (Hold _ _ Hin). by apply ro_gameId0.
    + simpl. rewrite lookup_insert_eq. by intros [= <-].
  - intros k pid1 pid2 p1 p2 H1 H2.
    apply Hin' in H1 as [H1 | [-> ->]]; apply Hin' in H2 as [H2 | [Hp Hk]].
    + rewrite (Hold _ _ H1), (Hold _ _ H2). by eapply ro_user_once0.
    + subst. rewrite (Hold _ _ H1). simpl. rewrite lookup_insert_eq.
      intros Hp1 [= <-] Hu Hne. simpl in *.
      destruct Hnew as [-> | Hnew]; [done |]. by destruct (Hnew _ _ H1 Hp1).
    + rewrite (Hold _ _ H2). simpl. rewrite lookup_insert_eq.
      intros [= <-] Hp2 Hu Hne. simpl in *.
      destruct Hnew as [-> | Hnew]; [done |]. by destruct (Hnew _ _ H2 Hp2).
    + done.
  - intros pid p. simpl. rewrite lookup_insert. destruct (decide _) as [<- |].
    + intros [= <-]. simpl. split_and!; [done | done | lia].
    + apply ro_plain0.
Qed.

Lemma roster_ok_createGameStore st id hostId isBotGame :
  roster_ok st → roster_ok (createGameStore st id hostId isBotGame).
Proof.
  intros Hok.
  assert (Hin : ∀ k pid, pid ∈ playerIdsOf (createGameStore st id hostId isBotGame) k →
                pid ∈ playerIdsOf st k).
  { intros k pid. unfold playerIdsOf at 1. simpl. rewrite lookup_insert.
    destruct (decide _); [by intros ?%elem_of_nil | done]. }
  destruct Hok. split; simpl; try done.
  - intros k pid ?%Hin. by eapply ro_enrolled0.
  - intros k. unfold playerIdsOf. simpl. rewrite lookup_insert.
    destruct (decide _); [constructor | apply ro_nodup0].
  - intros k1 k2 pid ?%Hin ?%Hin. by eapply ro_disjoint0.
  - intros k pid p ?%Hin. by apply ro_gameId0.
  - intros k pid1 pid2 p1 p2 ?%Hin ?%Hin. by eapply ro_user_once0.
Qed.

Lemma roster_ok_scored st pid p :
  roster_ok st → players st !! pid = Some p →
  roster_ok (set_players st (<[pid := Player.scored p]> (players st))).
Proof.
  intros [] Hp.
  assert (Hlook : ∀ q r, <[pid := Player.scored p]> (players st) !! q = Some r →
                  ∃ r0, players st !! q = Some r0
                        ∧ Player.userId r = Player.userId r0
                        ∧ Player.gameId r = Player.gameId r0
                        ∧ Player.id r = Player.id r0
                        ∧ Player.hasSubmitted r = Player.hasSubmitted r0
                        ∧ Player.score r0 ≤ Player.score r).
  { intros q r. rewrite lookup_insert. destruct (decide _) as [<- |].
    - intros [= <-]. exists p. simpl. split_and!; try done. lia.
    - intros Hq. exists r. split_and!; try done. }
  split; simpl; try done.
  - intros q. rewrite <- ro_players0, lookup_insert.
    destruct (decide _) as [<- |]; [| done]. rewrite Hp. split; by eexists.
  - intros k q r Hin (r0 & Hr0 & _ & -> & _)%Hlook. by eapply ro_gameId0.
  - intros k pid1 pid2 p1 p2 H1 H2 (r1 & Hr1 & -> & _)%Hlook (r2 & Hr2 & -> & _)%Hlook.
    by eapply ro_user_once0.
  - intros q r (r0 & Hr0 & _ & _ & -> & -> & Hle)%Hlook.
    destruct (ro_plain0 _ _ Hr0) as (? & ? & ?). split_and!; [done | done | lia].
Qed.

Lemma roster_endRound st key game w now u :
  roster (endRound st key game w now u) = roster st.
Proof. done. Qed.

(** A round is submitted to either without a change to users, players and
    enrollment, or with one more point for one stored player. *)
Lemma roster_submitWord st gameId userId word now u :
  roster_ok st →
  roster (snd (submitWord st gameId userId word now u)) = roster st
  ∨ ∃ pid p, players st !! pid = Some p
      ∧ roster (snd (submitWord st gameId userId word now u))
        = roster (set_players st (<[pid := Player.scored p]> (players st))).
Proof.
  intros Hok. unfold submitWord.
  destruct (games st !! gameId) as [game |]; [| by left].
  destruct (negb _); [by left |]. destruct (negb _); [by left |].
  cbn [snd]. rewrite roster_endRound.
  destruct (findPlayer _ _ _) as [[pid p] |] eqn:Hf; [| by left].
  apply findPlayer_Some in Hf as (_ & Hp & _).
  right. exists pid, p. split; [done |]. cbv zeta.
  change (Player.id (Player.scored p)) with (Player.id p).
  by rewrite scored_own_key by (by apply (ro_plain _ Hok)).
Qed.

Lemma roster_ok_submitWord st gameId userId word now u :
  roster_ok st → roster_ok (snd (submitWord st gameId userId word now u)).
Proof.
  intros Hok.
  destruct (roster_submitWord st gameId userId word now u Hok)
    as [Heq | (pid & p & Hp & Heq)].
  - by eapply roster_ok_ext.
  - eapply roster_ok_ext; [done |]. by apply roster_ok_scored.
Qed.

Lemma roster_ok_processBotMove st gameId now uBot u :
  roster_ok st → roster_ok (processBotMove st gameId now uBot u).
Proof.
  intros Hok. unfold processBotMove. destruct (games st !! gameId); [| done].
  destruct (_ || _); [done |]. destruct (_ && _); [| done].
  destruct (negb _); [| done]. by apply roster_ok_submitWord.
Qed.

Lemma roster_ok_getGame st id now uTimeout uBot u :
  roster_ok st → roster_ok (snd (getGame st id now uTimeout uBot u)).
Proof.
  intros Hok. unfold getGame. destruct (games st !! id) as [game |]; [| done].
  cbn [snd]. set (st1 := if _ && _ then _ else st).
  assert (H1 : roster_ok st1).
  { unfold st1. destruct (_ && _); [| done].
    eapply roster_ok_ext; [apply roster_endRound | done]. }
  clearbody st1. destruct (_ && _); [| done]. by apply roster_ok_processBotMove.
Qed.

Lemma roster_ok_joinGame st gameId userId :
  roster_ok st → roster_ok (snd (joinGame st gameId userId)).
Proof.
  intros Hok. unfold joinGame. destruct (games st !! gameId); [| done].
  destruct (negb _); [done |]. destruct (4 <=? _)%nat; [done |].
  destruct (findPlayer _ _ _) as [[existing p] |] eqn:Hf.
  - apply findPlayer_Some in Hf as (Hin & _ & _).
    apply (ro_enrolled _ Hok) in Hin.
    by rewrite (proj2 (Z.eqb_neq existing 0)) by lia.
  - apply roster_ok_enroll; [done |]. right. intros pid p Hin Hp.
    by eapply findPlayer_None.
Qed.

Lemma roster_ok_createGame st id hostId isBotGame :
  roster_ok st → roster_ok (snd (createGame st id hostId isBotGame)).
Proof.
  intros Hok. rewrite createGame_eq. cbn [snd].
  set (st1 := createGameStore st id hostId isBotGame).
  assert (H1 : roster_ok st1) by (by apply roster_ok_createGameStore).
  assert (Hl : playerIdsOf st1 id = []).
  { unfold playerIdsOf, st1. simpl. by rewrite lookup_insert_eq. }
  assert (H2 : roster_ok (snd (enroll st1 id hostId))).
  { apply roster_ok_enroll; [done |]. right. intros pid p. rewrite Hl.
    by intros ?%elem_of_nil. }
  destruct isBotGame; [| done]. apply roster_ok_enroll; [done | by left].
Qed.

Lemma roster_ok_exec st c : roster_ok st → roster_ok (exec st c).
Proof.
  intros Hok. destruct c; simpl.
  - by apply roster_ok_createUser.
  - done.
  - by apply roster_ok_createGame.
  - by apply roster_ok_getGame.
  - by apply roster_ok_joinGame.
  - unfold startGame. destruct (games st !! gameId); [| done].
    eapply roster_ok_ext; [| done]. done.
  - by apply roster_ok_submitWord.
  - by apply roster_ok_processBotMove.
Qed.

Lemma reachable_roster_ok st : reachable st → roster_ok st.
Proof.
  induction 1 as [| st c _ IH _]; [apply roster_ok_newStore | by apply roster_ok_exec].
Qed.

(** X1. In a reachable store [createUser] gives the new user the next
    identifier, which no stored user has; [getUser] then returns that user
    under the identifier, and every other identifier reads as before.
    Games, players and enrollment are not touched. *)
Theorem createUser_fresh st username :
  reachable st →
  User.id (fst (createUser st username)) = userIdCounter st
  ∧ User.username (fst (createUser st username)) = username
  ∧ getUser st (userIdCounter st) = None
  ∧ getUser (snd (createUser st username)) (userIdCounter st)
    = Some (fst (createUser st username))
  ∧ (∀ id, id ≠ userIdCounter st →
           getUser (snd (createUser st username)) id = getUser st id)
  ∧ userIdCounter (snd (createUser st username)) = userIdCounter st + 1
  ∧ games (snd (createUser st username)) = games st
  ∧ players (snd (createUser st username)) = players st
  ∧ gamePlayers (snd (createUser st username)) = gamePlayers st.
Proof.
  intros Hst. apply reachable_roster_ok in Hst.
  unfold getUser. simpl. split_and!; try done.
  - apply eq_None_not_Some. rewrite (ro_users _ Hst). lia.
  - apply lookup_insert_eq.
  - intros id Hne. by apply lookup_insert_ne.
Qed.

(** X2. In a reachable store the stored users are exactly those with the
    identifiers 1 up to the user counter, and the stored players exactly
    those with the identifiers 1 up to the player counter; every record
    carries the identifier it is stored under. *)
Theorem ids_are_sequential st :
  reachable st →
  (∀ id, is_Some (getUser st id) ↔ 1 ≤ id < userIdCounter st)
  ∧ (∀ id u, getUser st id = Some u → User.id u = id)
  ∧ (∀ pid, is_Some (players st !! pid) ↔ 1 ≤ pid < playerIdCounter st)
  ∧ (∀ pid p, players st !! pid = Some p → Player.id p = pid).
Proof.
  intros Hst. apply reachable_roster_ok in Hst. destruct Hst.
  split_and!; try done. intros pid p Hp. by apply ro_plain0.
Qed.

(** X3. In a reachable store the enrollment lists partition the enrolled
    players: no list names a player twice, no player is named by the lists
    of two games, and every enrolled identifier is that of a stored player
    whose record names the game it is enrolled in. *)
Theorem enrollment_partition st :
  reachable st →
  (∀ k, NoDup (playerIdsOf st k))
  ∧ (∀ k1 k2 pid,
       pid ∈ playerIdsOf st k1 → pid ∈ playerIdsOf st k2 → k1 = k2)
  ∧ (∀ k pid, pid ∈ playerIdsOf st k →
       ∃ p, players st !! pid = Some p
            ∧ Player.id p = pid ∧ Player.gameId p = k).
Proof.
  intros Hst. apply reachable_roster_ok in Hst.
  split_and!; [apply (ro_nodup _ Hst) | apply (ro_disjoint _ Hst) |].
  intros k pid Hin.
  destruct (proj2 (ro_players _ Hst pid) (ro_enrolled _ Hst _ _ Hin)) as [p Hp].
  exists p. split_and!; [done | by apply (ro_plain _ Hst) | by eapply (ro_gameId _ Hst)].
Qed.

(** X4. In a reachable store a user other than the bot's -1 has at most one
    player in a game: two enrolled players of the same game with the same
    user identifier are the same player. *)
Theorem one_player_per_user st k pid1 pid2 p1 p2 :
  reachable st →
  pid1 ∈ playerIdsOf st k → pid2 ∈ playerIdsOf st k →
  players st !! pid1 = Some p1 → players st !! pid2 = Some p2 →
  Player.userId p1 = Player.userId p2 →
  Player.userId p1 ≠ -1 →
  pid1 = pid2.
Proof. intros Hst. apply (ro_user_once _ (reachable_roster_ok _ Hst)). Qed.

(** X5. No call ever sets the [hasSubmitted] flag of a player, and no score
    is negative: in a reachable store every player record has the flag
    false and a score of at least 0. *)
Theorem hasSubmitted_never_set st pid p :
  reachable st →
  players st !! pid = Some p →
  Player.hasSubmitted p = false ∧ 0 ≤ Player.score p.
Proof.
  intros Hst Hp.
  by destruct (ro_plain _ (reachable_roster_ok _ Hst) _ _ Hp) as (_ & ? & ?).
Qed.

(** ** Properties of all stored games *)

Section GameInvariant.

Variable P : Game.t → Prop.

Hypothesis P_new : ∀ id hostId isBotGame,
    P (Game.mk id hostId waiting 0 EmptyString None isBotGame).
Hypothesis P_start : ∀ game now word,
    P game → In word startWords →
    P (Game.mk (Game.id game) (Game.hostId game) playing 1 word
               (Some (now + 5000)) (Game.isBotGame game)).
Hypothesis P_end : ∀ game w now u,
    P game → Game.status game = playing → unit_draw u →
    P (endRoundGame game w now u).

Lemma allGames_endRound st key game w now u :
  allGames P st → P game → Game.status game = playing → unit_draw u →
  allGames P (endRound st key game w now u).
Proof.
  intros H Hg Hs Hu k g. unfold endRound. simpl.
  rewrite lookup_insert. destruct (decide _); [intros [= <-]; by apply P_end |].
  rewrite lookup_insert. destruct (decide _); [intros [= <-]; by apply P_end |].
  apply H.
Qed.

Lemma allGames_submitWord st gameId userId word now u :
  allGames P st → unit_draw u →
  allGames P (snd (submitWord st gameId userId word now u)).
Proof.
  intros H Hu. unfold submitWord.
  destruct (games st !! gameId) as [game |] eqn:Hg; [| done].
  destruct (bool_decide (Game.status game = playing)) eqn:Hs; [| done].
  apply bool_decide_eq_true in Hs. cbn [negb].
  destruct (negb _); [done |]. cbn [snd].
  apply allGames_endRound; [| by eapply H | done | done].
  by destruct (findPlayer _ _ _) as [[? ?] |].
Qed.

Lemma allGames_processBotMove st gameId now uBot u :
  allGames P st → unit_draw u → allGames P (processBotMove st gameId now uBot u).
Proof.
  intros H Hu. unfold processBotMove. destruct (games st !! gameId); [| done].
  destruct (_ || _); [done |]. destruct (_ && _); [| done].
  destruct (negb _); [| done]. by apply allGames_submitWord.
Qed.

Lemma allGames_getGame st id now uTimeout uBot u :
  allGames P st → unit_draw uTimeout → unit_draw u →
  allGames P (snd (getGame st id now uTimeout uBot u)).
Proof.
  intros H Ht Hu. unfold getGame.
  destruct (games st !! id) as [game |] eqn:Hg; [| done].
  cbn [snd]. set (st1 := if _ && _ then _ else st).
  assert (H1 : allGames P st1).
  { unfold st1. destruct (bool_decide (Game.status game = playing)) eqn:Hs; [| done].
    apply bool_decide_eq_true in Hs. cbn [andb].
    destruct (match Game.roundEndsAt game with Some _ => _ | None => _ end); [| done].
    apply allGames_endRound; [done | by eapply H | done | done]. }
  clearbody st1. destruct (_ && _); [| done]. by apply allGames_processBotMove.
Qed.

Lemma allGames_exec st c : allGames P st → draws_ok c → allGames P (exec st c).
Proof.
  intros H Hc. destruct c; simpl in Hc; simpl.
  - done.
  - done.
  - intros k g. rewrite games_createGame, lookup_insert.
    destruct (decide _); [intros [= <-]; apply P_new | apply H].
  - destruct Hc as (? & ? & ?). by apply allGames_getGame.
  - intros k g. rewrite games_joinGame. apply H.
  - unfold startGame. destruct (games st !! gameId) as [game |] eqn:Hg; [| done].
    intros k g. simpl. rewrite lookup_insert.
    destruct (decide _); [| apply H]. intros [= <-].
    apply P_start; [by eapply H | by apply pickWord_In].
  - by apply allGames_submitWord.
  - destruct Hc as (? & ?). by apply allGames_processBotMove.
Qed.

Lemma allGames_reachable st : reachable st → allGames P st.
Proof.
  induction 1 as [| st c _ IH Hc]; [done | by apply allGames_exec].
Qed.

End GameInvariant.

(** X6. In a reachable store the round counter of every game lies between
    0 and 5 and goes with its status: a waiting game is at round 0 with an
    empty current word, a playing game is at a round from 1 to 5, and a
    finished game is at round 5. *)
Theorem round_matches_status st k game :
  reachable st →
  games st !! k = Some game →
  0 ≤ Game.round game ≤ 5
  ∧ (Game.status game = waiting →
     Game.round game = 0 ∧ Game.currentWord game = EmptyString)
  ∧ (Game.status game = playing → 1 ≤ Game.round game)
  ∧ (Game.status game = finished → Game.round game = 5).
Proof.
  intros Hst Hg.
  assert (H : roundMatchesStatus game).
  { revert k game Hg. apply allGames_reachable; [| | | done].
    - done.
    - intros g now word Hg _. unfold roundMatchesStatus. simpl. lia.
    - intros g w now u Hg Hs _. unfold roundMatchesStatus, endRoundGame in *.
      rewrite Hs in Hg.
      destruct (5 <=? Game.round g) eqn:Hr; simpl.
      + apply Z.leb_le in Hr. lia.
      + apply Z.leb_gt in Hr. rewrite Hs. lia. }
  unfold roundMatchesStatus in H.
  destruct (Game.status game); split_and!; try done; lia.
Qed.

(** ** Creating and joining games *)

(** X7. [createGame] never throws. It returns the new game, stored under
    its code as a waiting game at round 0 with an empty word and no expiry;
    the host is its first player, with the next player identifier and
    score 0, and in a bot game the bot, user -1, is its second player. *)
Theorem createGame_result st id hostId isBotGame :
  let game := Game.mk id hostId waiting 0 EmptyString None isBotGame in
  let c := playerIdCounter st in
  let st' := snd (createGame st id hostId isBotGame) in
  fst (createGame st id hostId isBotGame) = Return game
  ∧ games st' !! id = Some game
  ∧ playerIdsOf st' id = (if isBotGame then [c; c + 1] else [c])
  ∧ players st' !! c = Some (Player.mk c id hostId 0 false)
  ∧ (isBotGame = true →
     players st' !! (c + 1) = Some (Player.mk (c + 1) id (-1) 0 false))
  ∧ playerIdCounter st' = (if isBotGame then c + 2 else c + 1)
  ∧ users st' = users st.
Proof.
  cbv zeta. split_and!.
  - by rewrite createGame_eq.
  - rewrite games_createGame. apply lookup_insert_eq.
  - apply createGame_players.
  - rewrite createGame_eq. destruct isBotGame; simpl.
    + rewrite lookup_insert_ne by lia. apply lookup_insert_eq.
    + apply lookup_insert_eq.
  - intros ->. rewrite createGame_eq. simpl. apply lookup_insert_eq.
  - rewrite createGame_eq. destruct isBotGame; simpl; lia.
  - rewrite createGame_eq. by destruct isBotGame.
Qed.

(** X8. In a reachable store [createGame] leaves every other game and its
    enrollment, every stored player and every user as they were.  When the
    random code is that of an existing game, that game is replaced and its
    enrollment is dropped: none of its players is enrolled in the new
    game, although their records stay in the store. *)
Theorem createGame_frame st id hostId isBotGame :
  reachable st →
  let st' := snd (createGame st id hostId isBotGame) in
  (∀ k, k ≠ id → games st' !! k = games st !! k
                 ∧ playerIdsOf st' k = playerIdsOf st k)
  ∧ (∀ pid p, players st !! pid = Some p → players st' !! pid = Some p)
  ∧ (∀ pid, pid ∈ playerIdsOf st id → pid ∉ playerIdsOf st' id).
Proof.
  intros Hst. apply reachable_roster_ok in Hst. cbv zeta.
  split_and!.
  - intros k Hk. split.
    + rewrite games_createGame. by apply lookup_insert_ne.
    + rewrite createGame_eq. cbn [snd].
      assert (H1 : playerIdsOf (createGameStore st id hostId isBotGame) k
                   = playerIdsOf st k).
      { unfold playerIdsOf. simpl. by rewrite lookup_insert_ne. }
      destruct isBotGame.
      * by rewrite !playerIdsOf_enroll, !decide_False, H1.
      * by rewrite playerIdsOf_enroll, decide_False, H1.
  - intros pid p Hp.
    assert (Hlt : 1 ≤ pid < playerIdCounter st)
      by (apply (ro_players _ Hst); by eexists).
    rewrite createGame_eq. destruct isBotGame; simpl.
    + rewrite !lookup_insert_ne by lia. done.
    + rewrite lookup_insert_ne by lia. done.
  - intros pid Hin. apply (ro_enrolled _ Hst) in Hin.
    rewrite createGame_players.
    destruct isBotGame; intros Hx;
      repeat (apply elem_of_cons in Hx as [? | Hx]; [lia |]);
      by apply elem_of_nil in Hx.
Qed.

(** X9. [joinGame] throws exactly when the game is missing, is not waiting
    or has four players; the message names the first of these that
    applies, and a call that throws leaves the store unchanged. *)
Theorem joinGame_throws st gameId userId :
  ((∃ m, fst (joinGame st gameId userId) = Throw m) ↔
   match games st !! gameId with
   | None => True
   | Some game => Game.status game ≠ waiting
                  ∨ (4 ≤ length (playerIdsOf st gameId))%nat
   end)
  ∧ (∀ m, fst (joinGame st gameId userId) = Throw m →
          snd (joinGame st gameId userId) = st
          ∧ m = match games st !! gameId with
                | None => "Game not found"
                | Some game =>
                    if bool_decide (Game.status game = waiting)
                    then "Game full" else "Game already started"
                end).
Proof.
  unfold joinGame. destruct (games st !! gameId) as [game |].
  2: { split; [split; [done | by eexists] | by intros m [= <-]]. }
  destruct (bool_decide (Game.status game = waiting)) eqn:Hs; cbn [negb].
  2: { apply bool_decide_eq_false in Hs.
       split; [split; [by left | by eexists] | by intros m [= <-]]. }
  apply bool_decide_eq_true in Hs.
  destruct (4 <=? length (playerIdsOf st gameId))%nat eqn:Hlen.
  { apply Nat.leb_le in Hlen.
    split; [split; [by right | by eexists] | by intros m [= <-]]. }
  apply Nat.leb_gt in Hlen.
  assert (Hret : ∃ p st', (match findPlayer (players st) userId (playerIdsOf st gameId) with
                 | Some (existing, p) =>
                     if negb (existing =? 0) then (Return p, st)
                     else let '(player, st') := enroll st gameId userId in
                          (Return player, st')
                 | None => let '(player, st') := enroll st gameId userId in
                           (Return player, st')
                 end) = (Return p, st')).
  { destruct (findPlayer _ _ _) as [[existing p] |]; [| by eexists _, _].
    destruct (negb _); by eexists _, _. }
  destruct Hret as (p & st' & ->). simpl.
  split; [split | by intros m [=]].
  - by intros [m [=]].
  - intros [? | ?]; [done | lia].
Qed.

(** X10. In a reachable store a user who is not enrolled in a waiting game
    with fewer than four players joins it as a new player: the record has
    the next player identifier, the game, the user, score 0 and the flag
    false; it is stored and appended to the game's enrollment, after which
    the user is enrolled.  The games, every stored player and the
    enrollment of every other game stay as they were. *)
Theorem joinGame_new st gameId userId game :
  reachable st →
  games st !! gameId = Some game →
  Game.status game = waiting →
  (length (playerIdsOf st gameId) < 4)%nat →
  ¬ enrolled st gameId userId →
  let p := Player.mk (playerIdCounter st) gameId userId 0 false in
  let st' := snd (joinGame st gameId userId) in
  fst (joinGame st gameId userId) = Return p
  ∧ players st !! playerIdCounter st = None
  ∧ players st' = <[playerIdCounter st := p]> (players st)
  ∧ playerIdsOf st' gameId = playerIdsOf st gameId ++ [playerIdCounter st]
  ∧ (∀ k, k ≠ gameId → playerIdsOf st' k = playerIdsOf st k)
  ∧ games st' = games st
  ∧ playerIdCounter st' = playerIdCounter st + 1
  ∧ enrolled st' gameId userId.
Proof.
  intros Hst Hg Hs Hlen Hen. apply reachable_roster_ok in Hst. cbv zeta.
  assert (Hf : findPlayer (players st) userId (playerIdsOf st gameId) = None).
  { destruct (findPlayer _ _ _) eqn:Hf; [| done].
    destruct Hen. apply enrolled_findPlayer. by eexists. }
  assert (Hj : joinGame st gameId userId
               = (Return (Player.mk (playerIdCounter st) gameId userId 0 false),
                  snd (enroll st gameId userId))).
  { unfold joinGame. rewrite Hg, bool_decide_eq_true_2 by done. cbn [negb].
    by rewrite (proj2 (Nat.leb_gt _ _) Hlen), Hf. }
  rewrite Hj. cbn [fst snd]. split_and!; try done.
  - apply eq_None_not_Some. rewrite (ro_players _ Hst). lia.
  - by rewrite playerIdsOf_enroll, decide_True.
  - intros k Hk. by rewrite playerIdsOf_enroll, decide_False.
  - exists (playerIdCounter st), (Player.mk (playerIdCounter st) gameId userId 0 false).
    split_and!; [| simpl; apply lookup_insert_eq | done].
    rewrite playerIdsOf_enroll, decide_True by done. set_solver.
Qed.

(** A player stored under a new identifier and appended to an enrollment
    without a player of the user is the player found for the user. *)
Lemma findPlayer_snoc_new ps userId l c p :
  (∀ pid, pid ∈ l → pid ≠ c) →
  findPlayer ps userId l = None →
  Player.userId p = userId →
  findPlayer (<[c := p]> ps) userId (l ++ [c]) = Some (c, p).
Proof.
  intros Hne Hnone Hu. induction l as [| x l IH]; simpl.
  - rewrite lookup_insert_eq. by rewrite (proj2 (Z.eqb_eq _ _) Hu).
  - assert (Hx : x ≠ c) by (apply Hne; by left).
    rewrite lookup_insert_ne by done. simpl in Hnone.
    assert (IH' : findPlayer ps userId l = None →
                  findPlayer (<[c := p]> ps) userId (l ++ [c]) = Some (c, p)).
    { intros H. apply IH; [| done]. intros pid Hin. apply Hne. by right. }
    destruct (ps !! x) as [q |]; [| by apply IH'].
    destruct (Player.userId q =? userId); [done | by apply IH'].
Qed.

(** X11. In a reachable store, once a user has newly joined a waiting game,
    joining again returns the same player and changes nothing, unless the
    join made the game full: the fourth player to join is refused with
    "Game full" when joining again. *)
Theorem joinGame_twice st gameId userId game :
  reachable st →
  games st !! gameId = Some game →
  Game.status game = waiting →
  (length (playerIdsOf st gameId) < 4)%nat →
  ¬ enrolled st gameId userId →
  let st1 := snd (joinGame st gameId userId) in
  joinGame st1 gameId userId
  = (if (length (playerIdsOf st gameId) <? 3)%nat
     then fst (joinGame st gameId userId) else Throw "Game full", st1).
Proof.
  intros Hst Hg Hs Hlen Hen. cbv zeta.
  assert (Hok : roster_ok st) by (by apply reachable_roster_ok).
  assert (Hf : findPlayer (players st) userId (playerIdsOf st gameId) = None).
  { destruct (findPlayer _ _ _) eqn:Hf; [| done].
    destruct Hen. apply enrolled_findPlayer. by eexists. }
  assert (Hj : joinGame st gameId userId
               = (Return (Player.mk (playerIdCounter st) gameId userId 0 false),
                  snd (enroll st gameId userId))).
  { unfold joinGame. rewrite Hg, bool_decide_eq_true_2 by done. cbn [negb].
    by rewrite (proj2 (Nat.leb_gt _ _) Hlen), Hf. }
  rewrite Hj. cbn [fst snd].
  set (st1 := snd (enroll st gameId userId)).
  assert (Hl1 : playerIdsOf st1 gameId = playerIdsOf st gameId ++ [playerIdCounter st])
    by (unfold st1; by rewrite playerIdsOf_enroll, decide_True).
  unfold joinGame.
  replace (games st1 !! gameId) with (Some game) by done.
  rewrite bool_decide_eq_true_2 by done. cbn [negb].
  rewrite Hl1, length_app.
  change (length [playerIdCounter st]) with 1%nat.
  destruct (length (playerIdsOf st gameId) <? 3)%nat eqn:H3.
  - apply Nat.ltb_lt in H3. rewrite (proj2 (Nat.leb_gt _ _)) by lia.
    assert (Hf1 : findPlayer (players st1) userId
                    (playerIdsOf st gameId ++ [playerIdCounter st])
                  = Some (playerIdCounter st,
                          Player.mk (playerIdCounter st) gameId userId 0 false)).
    { apply findPlayer_snoc_new; [| done | done].
      intros pid Hin ->. apply (ro_enrolled _ Hok) in Hin. lia. }
    rewrite Hf1.
    destruct Hok as [[_ Hc] _ _ _ _ _ _ _ _ _].
    by rewrite (proj2 (Z.eqb_neq _ _)) by lia.
  - apply Nat.ltb_ge in H3. by rewrite (proj2 (Nat.leb_le _ _)) by lia.
Qed.

(** ** Letters, case and white space *)

Lemma upperChar_code (c : ascii) :
  nat_of_ascii (JsString.upperChar c)
  = if JsString.isLower c then (nat_of_ascii c - 32)%nat else nat_of_ascii c.
Proof.
  unfold JsString.upperChar. destruct (JsString.isLower c) eqn:Hl; [| done].
  apply nat_ascii_embedding. pose proof (nat_ascii_bounded c). lia.
Qed.

Lemma isLower_bounds (c : ascii) :
  JsString.isLower c = true ↔ (97 ≤ nat_of_ascii c ≤ 122)%nat.
Proof.
  unfold JsString.isLower. rewrite andb_true_iff, !Nat.leb_le. tauto.
Qed.

Lemma isWhiteSpace_bounds (c : ascii) :
  JsString.isWhiteSpace c = true
  ↔ (9 ≤ nat_of_ascii c ≤ 13)%nat ∨ nat_of_ascii c = 32%nat.
Proof.
  unfold JsString.isWhiteSpace.
  rewrite orb_true_iff, andb_true_iff, !Nat.leb_le, Nat.eqb_eq. tauto.
Qed.

Lemma isWhiteSpace_upperChar (c : ascii) :
  JsString.isWhiteSpace (JsString.upperChar c) = JsString.isWhiteSpace c.
Proof.
  apply eq_true_iff_eq. rewrite !isWhiteSpace_bounds, upperChar_code.
  destruct (JsString.isLower c) eqn:Hl; [| done].
  apply isLower_bounds in Hl. lia.
Qed.

Lemma upperChar_idemp (c : ascii) :
  JsString.upperChar (JsString.upperChar c) = JsString.upperChar c.
Proof.
  unfold JsString.upperChar at 1.
  destruct (JsString.isLower (JsString.upperChar c)) eqn:Hl; [| done].
  apply isLower_bounds in Hl. rewrite upperChar_code in Hl.
  destruct (JsString.isLower c) eqn:Hc; [| apply isLower_bounds in Hl; congruence].
  apply isLower_bounds in Hc. lia.
Qed.

Lemma toUpperCase_idemp (s : string) :
  JsString.toUpperCase (JsString.toUpperCase s) = JsString.toUpperCase s.
Proof. induction s as [| c s IH]; simpl; [done | by rewrite IH, upperChar_idemp]. Qed.

Lemma trimStart_toUpperCase (s : string) :
  JsString.trimStart (JsString.toUpperCase s)
  = JsString.toUpperCase (JsString.trimStart s).
Proof.
  induction s as [| c s IH]; simpl; [done |].
  rewrite isWhiteSpace_upperChar. by destruct (JsString.isWhiteSpace c).
Qed.

Lemma trimEnd_toUpperCase (s : string) :
  JsString.trimEnd (JsString.toUpperCase s)
  = JsString.toUpperCase (JsString.trimEnd s).
Proof.
  induction s as [| c s IH]; simpl; [done |].
  rewrite IH, isWhiteSpace_upperChar.
  destruct (JsString.trimEnd s); simpl; [| done].
  by destruct (JsString.isWhiteSpace c).
Qed.

Lemma sliceLast_toUpperCase (s : string) :
  JsString.sliceLast (JsString.toUpperCase s)
  = JsString.toUpperCase (JsString.sliceLast s).
Proof.
  induction s as [| c s IH]; simpl; [done |].
  destruct s as [| d s]; [done |]. exact IH.
Qed.

(** The first letter of a word is read off its upper-cased form. *)
Lemma firstChar_toUpperCase (word : string) :
  firstChar (JsString.toUpperCase word) = firstChar word.
Proof.
  unfold firstChar, JsString.trim.
  rewrite trimStart_toUpperCase, trimEnd_toUpperCase.
  destruct (JsString.trimEnd (JsString.trimStart word)); simpl; [done |].
  by rewrite upperChar_idemp.
Qed.

(** The first letter of a word is never a white-space character. *)
Lemma firstChar_not_whiteSpace (word : string) c :
  firstChar word = String c EmptyString → JsString.isWhiteSpace c = false.
Proof.
  unfold firstChar, JsString.trim.
  destruct (JsString.trimEnd (JsString.trimStart word)) as [| d r] eqn:Ht; [done |].
  simpl. intros [= <-]. rewrite isWhiteSpace_upperChar.
  apply trimEnd_head in Ht as [r0 Ht]. by eapply trimStart_head.
Qed.

Lemma lastChar_whiteSpace game :
  endsInWhiteSpace game →
  ∃ c, lastChar game = String c EmptyString ∧ JsString.isWhiteSpace c = true.
Proof.
  intros (w & c & Hw & Hc). exists c. split; [| done].
  unfold lastChar. rewrite Hw, sliceLast_snoc. simpl.
  by rewrite (upperChar_whiteSpace c Hc).
Qed.

(** ** More on submissions *)

(** X12. [submitWord] never throws and answers [valid: true] exactly when
    the game exists, is playing and the first letter of the word matches.
    Every other call leaves the store unchanged and carries a message:
    "Game not found", "Round not active", or the required letter. *)
Theorem submitWord_valid_iff st gameId userId word now u :
  (SubmitResult.valid (fst (submitWord st gameId userId word now u)) = true ↔
   ∃ game, games st !! gameId = Some game
           ∧ Game.status game = playing
           ∧ firstChar word = lastChar game)
  ∧ (SubmitResult.valid (fst (submitWord st gameId userId word now u)) = true →
     SubmitResult.message (fst (submitWord st gameId userId word now u)) = None)
  ∧ (SubmitResult.valid (fst (submitWord st gameId userId word now u)) = false →
     snd (submitWord st gameId userId word now u) = st
     ∧ SubmitResult.message (fst (submitWord st gameId userId word now u))
       = Some (match games st !! gameId with
               | None => "Game not found"
               | Some game =>
                   if bool_decide (Game.status game = playing)
                   then "Word must start with '" +:+ lastChar game +:+ "'"
                   else "Round not active"
               end)).
Proof.
  unfold submitWord. destruct (games st !! gameId) as [game |].
  2: { simpl. split_and!; [| done | done]. split; [done | by intros (? & ? & _)]. }
  destruct (bool_decide (Game.status game = playing)) eqn:Hs; cbn [negb].
  2: { apply bool_decide_eq_false in Hs. simpl. split_and!; [| done | done].
       split; [done | by intros (? & [= <-] & ? & _)]. }
  apply bool_decide_eq_true in Hs.
  destruct (String.eqb (firstChar word) (lastChar game)) eqn:He; cbn [negb].
  - apply String.eqb_eq in He. simpl. split_and!; [| done | done].
    split; [by exists game | done].
  - apply String.eqb_neq in He. simpl. split_and!; [| done | done].
    split; [done | by intros (? & [= <-] & _ & ?)].
Qed.

(** X13. A submission of ASCII text is read without regard to letter
    case: two words of ASCII characters with the same upper-cased form get
    the same answer and leave the same store. *)
Theorem submitWord_case_insensitive st gameId userId word word' now u :
  asciiOnly word = true →
  asciiOnly word' = true →
  JsString.toUpperCase word = JsString.toUpperCase word' →
  submitWord st gameId userId word now u
  = submitWord st gameId userId word' now u.
Proof.
  intros _ _ Heq.
  assert (Hf : firstChar word = firstChar word')
    by (by rewrite <- (firstChar_toUpperCase word), Heq, firstChar_toUpperCase).
  unfold submitWord. by rewrite Hf, Heq.
Qed.

(** X14. The chain rule, for ASCII text. In a reachable store, after a
    submission of a word of ASCII characters has been accepted in a round
    below 5, the next submission of a word of ASCII characters to that
    game is accepted exactly when its first letter is the upper-cased last
    character of the accepted word. *)
Theorem submitWord_chain st gameId userId word now u game userId' word' now' u' :
  reachable st →
  games st !! gameId = Some game →
  Game.status game = playing →
  firstChar word = lastChar game →
  Game.round game < 5 →
  asciiOnly word = true →
  asciiOnly word' = true →
  SubmitResult.valid
    (fst (submitWord (snd (submitWord st gameId userId word now u))
                     gameId userId' word' now' u')) = true
  ↔ firstChar word' = JsString.toUpperCase (JsString.sliceLast word).
Proof.
  intros Hst Hg Hs Heq Hr _ _. apply reachable_wf in Hst.
  rewrite (submitWord_accepted st gameId userId word now u game) by done.
  cbn [snd]. rewrite wonRound_open by done.
  unfold submitWord at 1. cbn [games]. rewrite lookup_insert_eq.
  cbn [Game.status]. rewrite Hs, bool_decide_eq_true_2 by done. cbn [negb].
  unfold lastChar at 1. cbn [Game.currentWord].
  rewrite sliceLast_toUpperCase, toUpperCase_idemp.
  destruct (String.eqb _ _) eqn:He; simpl.
  - by apply String.eqb_eq in He.
  - apply String.eqb_neq in He. split; [done | by intros ?].
Qed.

(** X15. While the current word of a playing game ends in a white-space
    character, no submission is accepted: whatever the user and the word,
    [submitWord] answers [valid: false], with the message that names that
    character, and leaves the store unchanged. *)
Theorem submitWord_after_whiteSpace st gameId userId word now u game :
  games st !! gameId = Some game →
  Game.status game = playing →
  endsInWhiteSpace game →
  submitWord st gameId userId word now u
  = (SubmitResult.mk false
       (Some ("Word must start with '" +:+ lastChar game +:+ "'")), st).
Proof.
  intros Hg Hs Hw. unfold submitWord. rewrite Hg.
  rewrite bool_decide_eq_true_2 by done. cbn [negb].
  destruct (String.eqb (firstChar word) (lastChar game)) eqn:He; [| done].
  apply String.eqb_eq in He.
  destruct (lastChar_whiteSpace _ Hw) as (c & Hc & Hws).
  rewrite Hc in He. apply firstChar_not_whiteSpace in He. congruence.
Qed.

(** ** What calls keep *)

Lemma keepsPlayers_refl st st' : players st' = players st → keepsPlayers st st'.
Proof. intros Heq pid p Hp. exists p. rewrite Heq. split_and!; [done | done | done | lia]. Qed.

Lemma keepsPlayers_trans st1 st2 st3 :
  keepsPlayers st1 st2 → keepsPlayers st2 st3 → keepsPlayers st1 st3.
Proof.
  intros H12 H23 pid p Hp.
  destruct (H12 _ _ Hp) as (p2 & Hp2 & Hu2 & Hg2 & Hs2).
  destruct (H23 _ _ Hp2) as (p3 & Hp3 & Hu3 & Hg3 & Hs3).
  exists p3. split_and!; [done | congruence | congruence | lia].
Qed.

Lemma keepsPlayers_scored st st' pid p :
  players st !! pid = Some p →
  players st' = <[pid := Player.scored p]> (players st) →
  keepsPlayers st st'.
Proof.
  intros Hp Heq q r Hq. rewrite Heq, lookup_insert.
  destruct (decide (pid = q)) as [-> |].
  - exists (Player.scored p). replace r with p by congruence.
    simpl. split_and!; [done | done | done | lia].
  - exists r. split_and!; [done | done | done | lia].
Qed.

Lemma keepsPlayers_enroll st gameId userId :
  roster_ok st → keepsPlayers st (snd (enroll st gameId userId)).
Proof.
  intros Hok pid p Hp. exists p. simpl.
  rewrite lookup_insert_ne; [split_and!; [done | done | done | lia] |].
  intros <-. assert (is_Some (players st !! playerIdCounter st)) as Hs by (by eexists).
  apply (ro_players _ Hok) in Hs. lia.
Qed.

Lemma keepsPlayers_roster st st' :
  roster st' = roster st
  ∨ (∃ pid p, players st !! pid = Some p
       ∧ roster st' = roster (set_players st (<[pid := Player.scored p]> (players st)))) →
  keepsPlayers st st'.
Proof.
  unfold roster. intros [[= _ Hp _ _ _] | (pid & p & Hp & [= _ Heq _ _ _])].
  - by apply keepsPlayers_refl.
  - by eapply keepsPlayers_scored.
Qed.

Lemma roster_eq_inv st st' :
  roster st' = roster st →
  users st' = users st ∧ players st' = players st
  ∧ gamePlayers st' = gamePlayers st
  ∧ userIdCounter st' = userIdCounter st
  ∧ playerIdCounter st' = playerIdCounter st.
Proof. unfold roster. by intros [= -> -> -> -> ->]. Qed.

Lemma roster_processBotMove st gameId now uBot u :
  roster_ok st →
  roster (processBotMove st gameId now uBot u) = roster st
  ∨ ∃ pid p, players st !! pid = Some p
      ∧ roster (processBotMove st gameId now uBot u)
        = roster (set_players st (<[pid := Player.scored p]> (players st))).
Proof.
  intros Hok. unfold processBotMove. destruct (games st !! gameId); [| by left].
  destruct (_ || _); [by left |]. destruct (_ && _); [| by left].
  destruct (negb _); [| by left]. by apply roster_submitWord.
Qed.

Lemma roster_getGame st id now uTimeout uBot u :
  roster_ok st →
  roster (snd (getGame st id now uTimeout uBot u)) = roster st
  ∨ ∃ pid p, players st !! pid = Some p
      ∧ roster (snd (getGame st id now uTimeout uBot u))
        = roster (set_players st (<[pid := Player.scored p]> (players st))).
Proof.
  intros Hok. unfold getGame. destruct (games st !! id) as [game |]; [| by left].
  cbn [snd]. set (st1 := if _ && _ then _ else st).
  assert (H1 : roster st1 = roster st) by (unfold st1; by destruct (_ && _)).
  assert (Hok1 : roster_ok st1) by (by eapply roster_ok_ext).
  clearbody st1. destruct (_ && _); [| by left].
  destruct (roster_processBotMove st1 id now uBot u Hok1)
    as [Heq | (pid & p & Hp & Heq)].
  - left. congruence.
  - right. exists pid, p.
    destruct (roster_eq_inv _ _ H1) as (Hu & Hps & Hg & Hc1 & Hc2).
    split; [by rewrite <- Hps |]. rewrite Heq. unfold roster. simpl.
    by rewrite Hu, Hps, Hg, Hc1, Hc2.
Qed.

Lemma gamePlayers_roster st st' :
  roster st' = roster st
  ∨ (∃ pid p, players st !! pid = Some p
       ∧ roster st' = roster (set_players st (<[pid := Player.scored p]> (players st)))) →
  gamePlayers st' = gamePlayers st.
Proof.
  unfold roster. by intros [[= _ _ Hg _ _] | (pid & p & Hp & [= _ _ Hg _ _])].
Qed.

Lemma createGame_keepsPlayers st id hostId isBotGame :
  roster_ok st → keepsPlayers st (snd (createGame st id hostId isBotGame)).
Proof.
  intros Hok. rewrite createGame_eq. cbn [snd].
  set (st1 := createGameStore st id hostId isBotGame).
  assert (H1 : roster_ok st1) by (by apply roster_ok_createGameStore).
  assert (Hl : playerIdsOf st1 id = []).
  { unfold playerIdsOf, st1. simpl. by rewrite lookup_insert_eq. }
  assert (H2 : roster_ok (snd (enroll st1 id hostId))).
  { apply roster_ok_enroll; [done |]. right. intros pid p. rewrite Hl.
    by intros ?%elem_of_nil. }
  assert (K1 : keepsPlayers st (snd (enroll st1 id hostId))).
  { eapply keepsPlayers_trans; [| by apply keepsPlayers_enroll].
    by apply keepsPlayers_refl. }
  destruct isBotGame; [| done].
  eapply keepsPlayers_trans; [done | by apply keepsPlayers_enroll].
Qed.

Lemma createGame_other_players st id hostId isBotGame k :
  k ≠ id →
  playerIdsOf (snd (createGame st id hostId isBotGame)) k = playerIdsOf st k.
Proof.
  intros Hk. rewrite createGame_eq. cbn [snd].
  assert (H1 : playerIdsOf (createGameStore st id hostId isBotGame) k
               = playerIdsOf st k).
  { unfold playerIdsOf. simpl. by rewrite lookup_insert_ne. }
  destruct isBotGame.
  - by rewrite !playerIdsOf_enroll, !decide_False, H1.
  - by rewrite playerIdsOf_enroll, decide_False, H1.
Qed.

Lemma joinGame_keeps st gameId userId k :
  roster_ok st →
  keepsPlayers st (snd (joinGame st gameId userId))
  ∧ playerIdsOf st k `prefix_of` playerIdsOf (snd (joinGame st gameId userId)) k.
Proof.
  intros Hok. unfold joinGame. destruct (games st !! gameId).
  2: { split; [by apply keepsPlayers_refl | done]. }
  destruct (negb _); [split; [by apply keepsPlayers_refl | done] |].
  destruct (4 <=? _)%nat; [split; [by apply keepsPlayers_refl | done] |].
  assert (He : keepsPlayers st (snd (enroll st gameId userId))
               ∧ playerIdsOf st k `prefix_of`
                   playerIdsOf (snd (enroll st gameId userId)) k).
  { split; [by apply keepsPlayers_enroll |]. rewrite playerIdsOf_enroll.
    destruct (decide _) as [<- |]; [by apply prefix_app_r | done]. }
  destruct (findPlayer _ _ _) as [[existing p] |]; [| done].
  destruct (negb _); [split; [by apply keepsPlayers_refl | done] | done].
Qed.

Lemma exec_keeps st c :
  roster_ok st →
  keepsPlayers st (exec st c)
  ∧ (∀ k, ¬ recreates k c →
          playerIdsOf st k `prefix_of` playerIdsOf (exec st c) k).
Proof.
  intros Hst.
  assert (Hsame : ∀ st', roster st' = roster st
            ∨ (∃ pid p, players st !! pid = Some p
                 ∧ roster st' = roster (set_players st
                                          (<[pid := Player.scored p]> (players st)))) →
            keepsPlayers st st'
            ∧ (∀ k, playerIdsOf st k `prefix_of` playerIdsOf st' k)).
  { intros st' H. split; [by apply keepsPlayers_roster |].
    intros k. unfold playerIdsOf. by rewrite (gamePlayers_roster _ _ H). }
  destruct c; simpl.
  - split; [by apply keepsPlayers_refl | done].
  - split; [by apply keepsPlayers_refl | done].
  - split; [by apply createGame_keepsPlayers |].
    intros k Hk. rewrite createGame_other_players; [done | by intros ->].
  - destruct (Hsame _ (roster_getGame st id now uTimeout uBot u Hst)). by split.
  - split; [by apply joinGame_keeps | intros k _; by apply joinGame_keeps].
  - unfold startGame. destruct (games st !! gameId); (split; [by apply keepsPlayers_refl | done]).
  - destruct (Hsame _ (roster_submitWord st gameId userId word now u Hst)). by split.
  - destruct (Hsame _ (roster_processBotMove st gameId now uBot u Hst)). by split.
Qed.

(** X16. No call removes a player or lowers a score. From a reachable
    store, after any call every stored player is still stored, for the
    same user and game and with a score at least as high, and the
    enrollment of a game is extended at its end only, unless the call is a
    [createGame] that draws the code of that game again. *)
Theorem players_are_kept st c :
  reachable st →
  keepsPlayers st (exec st c)
  ∧ (∀ k, ¬ recreates k c →
          playerIdsOf st k `prefix_of` playerIdsOf (exec st c) k).
Proof. intros Hst. by apply exec_keeps, reachable_roster_ok. Qed.

Lemma enrolled_kept st st' k userId :
  keepsPlayers st st' →
  playerIdsOf st k `prefix_of` playerIdsOf st' k →
  enrolled st k userId → enrolled st' k userId.
Proof.
  intros Hk [l Hl] (pid & p & Hin & Hp & Hu).
  destruct (Hk _ _ Hp) as (p' & Hp' & Hu' & _).
  exists pid, p'. split_and!; [| done | congruence].
  rewrite Hl. apply elem_of_app. by left.
Qed.

(** ** Where the games of a store come from *)

Lemma sameGame_refl game : sameGame game game.
Proof. done. Qed.

Lemma sameGame_endRoundGame game w now u : sameGame game (endRoundGame game w now u).
Proof. unfold sameGame, endRoundGame. by destruct (5 <=? Game.round game). Qed.

(** Every game of [st'] is a later record of the game of [st] under the
    same code. *)
Lemma origin_insert st st' key game game' :
  games st !! key = Some game →
  games st' = <[key := game']> (games st) →
  sameGame game game' →
  ∀ k g', games st' !! k = Some g' →
          ∃ g, games st !! k = Some g ∧ sameGame g g'.
Proof.
  intros Hg Heq Hs k g'. rewrite Heq, lookup_insert.
  destruct (decide (key = k)) as [<- |].
  - intros [= <-]. by exists game.
  - intros Hk. by exists g'.
Qed.

Lemma origin_submitWord st gameId userId word now u :
  wf_store st →
  ∀ k g', games (snd (submitWord st gameId userId word now u)) !! k = Some g' →
          ∃ g, games st !! k = Some g ∧ sameGame g g'.
Proof.
  intros Hwf. unfold submitWord.
  destruct (games st !! gameId) as [game |] eqn:Hg; [| by eauto using sameGame_refl].
  destruct (negb _); [by eauto using sameGame_refl |].
  destruct (negb _); [by eauto using sameGame_refl |]. cbn [snd].
  set (st1 := match findPlayer _ _ _ with Some _ => _ | None => st end).
  assert (H1 : games st1 = games st)
    by (unfold st1; by destruct (findPlayer _ _ _) as [[? ?] |]).
  eapply origin_insert; [done | | apply sameGame_endRoundGame].
  unfold endRound. simpl. rewrite H1.
  assert (Game.id (endRoundGame game (Some (JsString.toUpperCase word)) now u)
          = gameId) as ->; [| by rewrite insert_insert_eq].
  transitivity (Game.id game); [| by eapply wf_game_id].
  apply sameGame_endRoundGame.
Qed.

Lemma origin_processBotMove st gameId now uBot u :
  wf_store st →
  ∀ k g', games (processBotMove st gameId now uBot u) !! k = Some g' →
          ∃ g, games st !! k = Some g ∧ sameGame g g'.
Proof.
  intros Hwf. unfold processBotMove.
  destruct (games st !! gameId); [| by eauto using sameGame_refl].
  destruct (_ || _); [by eauto using sameGame_refl |].
  destruct (_ && _); [| by eauto using sameGame_refl].
  destruct (negb _); [| by eauto using sameGame_refl].
  by apply origin_submitWord.
Qed.

Lemma origin_getGame st id now uTimeout uBot u :
  wf_store st → unit_draw uTimeout →
  ∀ k g', games (snd (getGame st id now uTimeout uBot u)) !! k = Some g' →
          ∃ g, games st !! k = Some g ∧ sameGame g g'.
Proof.
  intros Hwf Hu. unfold getGame.
  destruct (games st !! id) as [game |] eqn:Hg; [| by eauto using sameGame_refl].
  cbn [snd]. set (st1 := if _ && _ then _ else st).
  assert (H1 : wf_store st1
               ∧ ∀ k g', games st1 !! k = Some g' →
                         ∃ g, games st !! k = Some g ∧ sameGame g g').
  { unfold st1. destruct (bool_decide (Game.status game = playing)) eqn:Hs;
      [| by eauto using sameGame_refl].
    apply bool_decide_eq_true in Hs. cbn [andb].
    destruct (match Game.roundEndsAt game with Some _ => _ | None => _ end);
      [| by eauto using sameGame_refl].
    split; [by apply wf_endRound |].
    eapply origin_insert; [done | | apply sameGame_endRoundGame].
    by rewrite endRound_own_key by (by eapply wf_game_id). }
  clearbody st1. destruct H1 as [Hwf1 Ho1].
  destruct (_ && _); [| done].
  intros k g' Hg'.
  destruct (origin_processBotMove st1 id now uBot u Hwf1 _ _ Hg') as (g1 & Hg1 & Hs1).
  destruct (Ho1 _ _ Hg1) as (g & Hg0 & Hs0).
  exists g. split; [done |]. unfold sameGame in *. intuition congruence.
Qed.

Lemma origin_exec st c k g' :
  wf_store st → draws_ok c →
  games (exec st c) !! k = Some g' →
  recreates k c ∨ ∃ g, games st !! k = Some g ∧ sameGame g g'.
Proof.
  intros Hwf Hc. destruct c; simpl in Hc; simpl.
  - right. by exists g'.
  - right. by exists g'.
  - rewrite games_createGame, lookup_insert.
    destruct (decide _); [by left | right; by exists g'].
  - destruct Hc as (? & _). right. by eapply origin_getGame.
  - rewrite games_joinGame. right. by exists g'.
  - unfold startGame. destruct (games st !! gameId) as [game |] eqn:Hg;
      [| right; by exists g'].
    simpl. rewrite lookup_insert. destruct (decide _) as [<- |].
    + intros [= <-]. right. by exists game.
    + intros Hk. right. by exists g'.
  - right. by eapply origin_submitWord.
  - right. by eapply origin_processBotMove.
Qed.

Lemma games_stay st c k :
  wf_store st → draws_ok c →
  is_Some (games st !! k) → is_Some (games (exec st c) !! k).
Proof.
  intros Hwf Hc [g Hg].
  assert (Hfw : ∀ st', forwardAt k st st' → is_Some (games st' !! k)).
  { intros st' Hf. destruct (Hf _ Hg) as (g1 & Hg1 & _). by eexists. }
  destruct c; simpl in Hc; simpl.
  - by eexists.
  - by eexists.
  - rewrite games_createGame, lookup_insert. destruct (decide _); by eexists.
  - destruct Hc as (? & _). by apply Hfw, forwardAt_getGame.
  - rewrite games_joinGame. by eexists.
  - unfold startGame. destruct (games st !! gameId); [| by eexists].
    simpl. rewrite lookup_insert. destruct (decide _); by eexists.
  - by apply Hfw, forwardAt_submitWord.
  - by apply Hfw, forwardAt_processBotMove.
Qed.

Lemma recreates_dec k c : recreates k c ∨ ¬ recreates k c.
Proof.
  destruct c as [| | code ? ? | | | | |]; simpl; try (right; tauto).
  destruct (decide (code = k)); [by left | by right].
Qed.

Lemma botEnrolled_exec st c :
  wf_store st → roster_ok st → draws_ok c →
  botEnrolled st → botEnrolled (exec st c).
Proof.
  intros Hwf Hok Hc Hbot k g' Hg' Hflag.
  destruct (recreates_dec k c) as [Hre | Hre].
  - destruct c; simpl in Hre; try done. subst id.
    simpl in Hg'. rewrite games_createGame, lookup_insert_eq in Hg'.
    injection Hg' as <-. simpl in Hflag. subst isBotGame. simpl.
    exists (playerIdCounter st + 1), (Player.mk (playerIdCounter st + 1) k (-1) 0 false).
    split_and!; [| | done].
    + rewrite createGame_players. apply elem_of_cons. right. by apply elem_of_cons; left.
    + rewrite createGame_eq. simpl. apply lookup_insert_eq.
  - destruct (origin_exec st c k g' Hwf Hc Hg') as [? | (g & Hg & _ & _ & Hsame)];
      [done |].
    destruct (exec_keeps st c Hok) as [Hkeep Hpre].
    eapply enrolled_kept; [done | by apply Hpre |].
    apply (Hbot _ g); [done | congruence].
Qed.

Lemma reachable_botEnrolled st : reachable st → botEnrolled st.
Proof.
  induction 1 as [| st c Hst IH Hc]; [by intros k g |].
  apply botEnrolled_exec; [by apply reachable_wf | by apply reachable_roster_ok | done | done].
Qed.

(** X17. In a reachable store every bot game has a player of the bot's
    user -1 enrolled, so the word the bot submits always scores for a stored
    player of that game. *)
Theorem bot_is_enrolled st k game :
  reachable st →
  games st !! k = Some game →
  Game.isBotGame game = true →
  ∃ pid p, findPlayer (players st) (-1) (playerIdsOf st k) = Some (pid, p)
           ∧ pid ∈ playerIdsOf st k
           ∧ players st !! pid = Some p
           ∧ Player.userId p = -1
           ∧ Player.gameId p = k.
Proof.
  intros Hst Hg Hflag.
  pose proof (reachable_botEnrolled st Hst k game Hg Hflag) as Hen.
  apply enrolled_findPlayer in Hen as [[pid p] Hf].
  exists pid, p. split; [done |].
  apply findPlayer_Some in Hf as (Hin & Hp & Hu).
  split_and!; try done.
  by eapply (ro_gameId _ (reachable_roster_ok _ Hst)).
Qed.

(** X18. From a reachable store, a call other than a [createGame] that
    draws the code [k] neither adds nor removes the game [k], and leaves
    its id, its host and its bot flag as they were. *)
Theorem games_are_kept st c k :
  reachable st →
  draws_ok c →
  ¬ recreates k c →
  (is_Some (games (exec st c) !! k) ↔ is_Some (games st !! k))
  ∧ (∀ game game', games st !! k = Some game →
                   games (exec st c) !! k = Some game' →
                   Game.id game' = k
                   ∧ Game.id game' = Game.id game
                   ∧ Game.hostId game' = Game.hostId game
                   ∧ Game.isBotGame game' = Game.isBotGame game).
Proof.
  intros Hst Hc Hre. pose proof (reachable_wf _ Hst) as Hwf. split.
  - split; [| by apply games_stay].
    intros [g' Hg']. destruct (origin_exec st c k g' Hwf Hc Hg') as [? | (g & Hg & _)];
      [done | by eexists].
  - intros game game' Hg Hg'.
    destruct (origin_exec st c k game' Hwf Hc Hg') as [? | (g & Hg0 & Hid & Hh & Hb)];
      [done |].
    replace g with game in * by congruence.
    split_and!; try done. rewrite Hid. by eapply wf_game_id.
Qed.

(** ** The bot *)

Lemma botDraw_test uBot :
  negb (Qle_bool uBot botMissThreshold) = true ↔ botDraw uBot.
Proof.
  unfold botDraw. rewrite negb_true_iff, <- not_true_iff_false, Qle_bool_iff.
  split; [apply Qnot_le_lt | apply Qlt_not_le].
Qed.

Lemma botWindow_test game now :
  (match Game.roundEndsAt game with Some t => t - now | None => 0 end <? 3000)
  && (1000 <? match Game.roundEndsAt game with Some t => t - now | None => 0 end)
  = true ↔ botWindow game now.
Proof.
  unfold botWindow. rewrite andb_true_iff, !Z.ltb_lt.
  destruct (Game.roundEndsAt game) as [t |].
  - split; [intros [? ?]; exists t; split; [done | lia] |].
    intros (t' & [= <-] & ?). lia.
  - split; [lia | by intros (? & ? & _)].
Qed.

(** [processBotMove] changes nothing unless the game is a playing bot game
    in the bot's window and the draw lets the bot answer. *)
Lemma processBotMove_inert st gameId now uBot u :
  (∀ game, games st !! gameId = Some game →
           ¬ (Game.status game = playing ∧ Game.isBotGame game = true
              ∧ botWindow game now ∧ botDraw uBot)) →
  processBotMove st gameId now uBot u = st.
Proof.
  intros H. unfold processBotMove.
  destruct (games st !! gameId) as [game |]; [| done].
  specialize (H game eq_refl).
  destruct (bool_decide (Game.status game = playing)) eqn:Hs; [| done].
  apply bool_decide_eq_true in Hs.
  destruct (Game.isBotGame game) eqn:Hb; [| done]. cbn [negb orb].
  destruct (_ && _) eqn:Hw; [| done]. apply botWindow_test in Hw.
  destruct (negb _) eqn:Hd; [| done]. apply botDraw_test in Hd.
  by destruct H.
Qed.

Lemma string_snoc (s : string) :
  s ≠ EmptyString → ∃ w c, s = w +:+ String c EmptyString.
Proof.
  induction s as [| d s IH]; [done |]. intros _.
  destruct s as [| e s].
  - by exists EmptyString, d.
  - destruct IH as (w & c & Hw); [done |]. exists (String d w), c. simpl. by rewrite Hw.
Qed.

(** The word of the bot passes the first-letter check unless the current
    word ends in white space. *)
Lemma botWord_passes game :
  Game.currentWord game ≠ EmptyString →
  ¬ endsInWhiteSpace game →
  firstChar (lastChar game +:+ "BOTWORD") = lastChar game
  ∧ JsString.toUpperCase (lastChar game +:+ "BOTWORD") = lastChar game +:+ "BOTWORD"
  ∧ JsString.toUpperCase (JsString.sliceLast (lastChar game +:+ "BOTWORD")) = "D".
Proof.
  intros Hne Hws. destruct (string_snoc _ Hne) as (w & c & Hw).
  assert (Hc : JsString.isWhiteSpace c = false).
  { destruct (JsString.isWhiteSpace c) eqn:Hc; [| done]. destruct Hws. by exists w, c. }
  unfold lastChar. rewrite Hw, sliceLast_snoc. simpl.
  unfold firstChar, JsString.trim. simpl.
  rewrite isWhiteSpace_upperChar, Hc. simpl.
  by rewrite !upperChar_idemp.
Qed.

Lemma processBotMove_fires st gameId now uBot u game :
  wf_store st →
  games st !! gameId = Some game →
  Game.status game = playing →
  Game.isBotGame game = true →
  botWindow game now →
  botDraw uBot →
  ¬ endsInWhiteSpace game →
  processBotMove st gameId now uBot u
  = mkStore (users st)
      (<[gameId := wonRound game (lastChar game +:+ "BOTWORD") now]> (games st))
      (scoredPlayers st gameId (-1)) (gamePlayers st)
      (userIdCounter st) (playerIdCounter st).
Proof.
  intros Hwf Hg Hs Hb Hw Hd Hws.
  destruct (botWord_passes game) as (Hfirst & Hup & _);
    [by eapply wf_word | done |].
  unfold processBotMove. rewrite Hg, Hb, bool_decide_eq_true_2 by done.
  cbn [negb orb].
  rewrite (proj2 (botWindow_test game now) Hw), (proj2 (botDraw_test uBot) Hd).
  rewrite (submitWord_accepted st gameId (-1) _ now u game) by done.
  cbn [snd]. by rewrite Hup.
Qed.

(** X19. In a reachable store, when a playing bot game is in the bot's
    window, the draw is above 0.3 and the current word does not end in
    white space, [processBotMove] submits the required letter followed by
    BOTWORD for the bot: the first enrolled player of user -1 gets one
    point and the round is resolved with that word, so that a next round
    requires the letter D. *)
Theorem processBotMove_moves st gameId now uBot u game :
  reachable st →
  games st !! gameId = Some game →
  Game.status game = playing →
  Game.isBotGame game = true →
  botWindow game now →
  botDraw uBot →
  ¬ endsInWhiteSpace game →
  ∃ pid p game',
    findPlayer (players st) (-1) (playerIdsOf st gameId) = Some (pid, p)
    ∧ processBotMove st gameId now uBot u
      = mkStore (users st) (<[gameId := game']> (games st))
          (<[pid := Player.mk (Player.id p) (Player.gameId p) (Player.userId p)
                              (Player.score p + 1) (Player.hasSubmitted p)]>
             (players st))
          (gamePlayers st) (userIdCounter st) (playerIdCounter st)
    ∧ resolvedBy game game' (lastChar game +:+ "BOTWORD") now
    ∧ (Game.round game < 5 → lastChar game' = "D").
Proof.
  intros Hst Hg Hs Hb Hw Hd Hws.
  pose proof (reachable_wf _ Hst) as Hwf.
  pose proof (reachable_botEnrolled st Hst gameId game Hg Hb) as Hen.
  apply enrolled_findPlayer in Hen as [[pid p] Hf].
  exists pid, p, (wonRound game (lastChar game +:+ "BOTWORD") now).
  split; [done |]. split.
  - rewrite (processBotMove_fires _ _ _ _ _ game) by done.
    unfold scoredPlayers. by rewrite Hf.
  - split; [by apply wonRound_resolvedBy |].
    intros Hr. rewrite wonRound_open by done. unfold lastChar at 1.
    cbn [Game.currentWord].
    by destruct (botWord_passes game) as (_ & _ & ->); [by eapply wf_word | done |].
Qed.

(** X20. In a reachable store, once the bot has moved, a further
    [processBotMove] at the same clock reading changes nothing, whatever
    its draws: the new round has five seconds left, or the game is
    finished. *)
Theorem processBotMove_once st gameId now uBot u uBot' u' game :
  reachable st →
  games st !! gameId = Some game →
  Game.status game = playing →
  Game.isBotGame game = true →
  botWindow game now →
  botDraw uBot →
  ¬ endsInWhiteSpace game →
  processBotMove (processBotMove st gameId now uBot u) gameId now uBot' u'
  = processBotMove st gameId now uBot u.
Proof.
  intros Hst Hg Hs Hb Hw Hd Hws. apply reachable_wf in Hst.
  rewrite (processBotMove_fires st gameId now uBot u game) by done.
  set (game' := wonRound game (lastChar game +:+ "BOTWORD") now).
  set (st' := mkStore _ _ _ _ _ _).
  assert (Hg' : games st' !! gameId = Some game')
    by (unfold st'; simpl; apply lookup_insert_eq).
  destruct (Z.lt_ge_cases (Game.round game) 5) as [Hr | Hr].
  - eapply processBotMove_new_round; [done |].
    unfold game'. by rewrite wonRound_open.
  - unfold processBotMove. rewrite Hg'. unfold game'. by rewrite wonRound_last.
Qed.

(** X21. While the current word of a playing game ends in a white-space
    character the bot cannot move either: its word is rejected and
    [processBotMove] changes nothing. *)
Theorem processBotMove_after_whiteSpace st gameId now uBot u game :
  games st !! gameId = Some game →
  Game.status game = playing →
  endsInWhiteSpace game →
  processBotMove st gameId now uBot u = st.
Proof.
  intros Hg Hs Hw. unfold processBotMove. rewrite Hg.
  destruct (_ || _); [done |]. destruct (_ && _); [| done].
  destruct (negb _); [| done].
  unfold submitWord. rewrite Hg, bool_decide_eq_true_2 by done. cbn [negb].
  destruct (String.eqb _ _) eqn:He; [| done].
  apply String.eqb_eq in He.
  destruct (lastChar_whiteSpace _ Hw) as (c & Hc & Hws).
  rewrite Hc in He at 2. apply firstChar_not_whiteSpace in He. congruence.
Qed.

(** ** More on reading a game *)

Lemma getGame_idle st id now uTimeout uBot u game :
  games st !! id = Some game →
  ¬ (Game.status game = playing
     ∧ ∃ t, Game.roundEndsAt game = Some t ∧ t < now) →
  ¬ (Game.status game = playing ∧ Game.isBotGame game = true
     ∧ botWindow game now ∧ botDraw uBot) →
  getGame st id now uTimeout uBot u
  = (Some (GameState.mk game (playersWithNames st id)), st).
Proof.
  intros Hg Hexp Hbot. unfold getGame. rewrite Hg.
  assert (H1 : bool_decide (Game.status game = playing)
               && match Game.roundEndsAt game with
                  | Some t => t <? now
                  | None => false
                  end = false).
  { apply not_true_iff_false. intros [Hs Ht]%andb_true_iff.
    apply bool_decide_eq_true in Hs. destruct Hexp. split; [done |].
    destruct (Game.roundEndsAt game) as [t |]; [| done].
    exists t. split; [done | by apply Z.ltb_lt]. }
  rewrite H1.
  assert (Hc : current st id game = game) by (unfold current; by rewrite Hg).
  rewrite Hc.
  assert (H2 : (if bool_decide (Game.status game = playing) && Game.isBotGame game
                then processBotMove st id now uBot u else st) = st).
  { destruct (bool_decide (Game.status game = playing) && Game.isBotGame game);
      [| reflexivity].
    apply processBotMove_inert.
    intros g Hg'. by replace g with game by congruence. }
  by rewrite H2, Hc.
Qed.

(** X22. [getGame] on a code without a game returns nothing.  On a game
    that has not timed out, a round expires only when the clock is
    strictly past the expiry, and for which the bot does not move,
    [getGame] is a pure read: it returns the stored game with its players
    and leaves the store unchanged. *)
Theorem getGame_reads st id now uTimeout uBot u :
  (games st !! id = None →
   getGame st id now uTimeout uBot u = (None, st))
  ∧ (∀ game, games st !! id = Some game →
       ¬ (Game.status game = playing
          ∧ ∃ t, Game.roundEndsAt game = Some t ∧ t < now) →
       ¬ (Game.status game = playing ∧ Game.isBotGame game = true
          ∧ botWindow game now ∧ botDraw uBot) →
       getGame st id now uTimeout uBot u
       = (Some (GameState.mk game (playersWithNames st id)), st)).
Proof.
  split; [intros Hg; unfold getGame; by rewrite Hg |].
  intros game. apply getGame_idle.
Qed.

Lemma omap_all {A B} (f : A → option B) (l : list A) :
  (∀ x, x ∈ l → is_Some (f x)) →
  Forall2 (λ x y, f x = Some y) l (omap f l).
Proof.
  induction l as [| x l IH]; intros H; simpl; [constructor |].
  destruct (H x) as [y Hy]; [by left |]. rewrite Hy.
  constructor; [done |]. apply IH. intros z Hz. apply H. by right.
Qed.

(** X23. In a reachable store [getGame] on an existing game returns a view
    of the game as the store holds it after the call, with one entry for
    every enrolled player, in the order of joining: the stored record and
    its display name, which is "Alice (Bot)" for user -1, the name of the
    user if there is one, and "Unknown" otherwise. *)
Theorem getGame_view st id now uTimeout uBot u game :
  reachable st →
  unit_draw uTimeout → unit_draw u →
  games st !! id = Some game →
  let st' := snd (getGame st id now uTimeout uBot u) in
  ∃ view,
    fst (getGame st id now uTimeout uBot u) = Some view
    ∧ games st' !! id = Some (GameState.game view)
    ∧ Forall2
        (λ pid entry,
           players st' !! pid = Some (fst entry)
           ∧ snd entry
             = (if Player.userId (fst entry) =? -1 then "Alice (Bot)"
                else match getUser st' (Player.userId (fst entry)) with
                     | Some user => User.username user
                     | None => "Unknown"
                     end))
        (playerIdsOf st' id) (GameState.players view).
Proof.
  intros Hst Ht Hu Hg. cbv zeta.
  pose proof (reachable_wf _ Hst) as Hwf.
  pose proof (wf_getGame st id now uTimeout uBot u Hwf Ht Hu) as Hwf'.
  destruct (forwardAt_getGame id st id now uTimeout uBot u Hwf Ht _ Hg)
    as (game' & Hg' & _).
  revert Hwf' Hg'. unfold getGame. rewrite Hg. cbn [fst snd].
  set (st2 := if _ && _ then processBotMove _ _ _ _ _ else _).
  clearbody st2. intros Hwf' Hg'.
  eexists. split; [done |]. cbn [GameState.game GameState.players].
  split; [unfold current; by rewrite Hg' |].
  unfold playersWithNames. apply Forall2_fmap_r.
  eapply Forall2_impl; [apply omap_all |].
  - intros pid Hin. unfold playerIdsOf in Hin.
    destruct (gamePlayers st2 !! id) as [l |] eqn:Hl; [| by apply elem_of_nil in Hin].
    by eapply wf_enrolled.
  - intros pid p Hp. by split.
Qed.

(** ** The length of a game *)

Lemma endRounds_finished game steps :
  Game.status game = finished → 5 ≤ Game.round game →
  Game.status (endRounds game steps) = finished
  ∧ Game.round (endRounds game steps) = Game.round game.
Proof.
  revert game. induction steps as [| [[w now] u] steps IH]; intros game Hs Hr; [done |].
  unfold endRounds. simpl. fold (endRounds (endRoundGame game w now u) steps).
  assert (He : endRoundGame game w now u
               = Game.mk (Game.id game) (Game.hostId game) finished (Game.round game)
                         (Game.currentWord game) None (Game.isBotGame game)).
  { unfold endRoundGame. by rewrite (proj2 (Z.leb_le _ _) Hr). }
  rewrite He. set (game1 := Game.mk _ _ _ _ _ _ _).
  destruct (IH game1) as [Hs1 Hr1]; [done | done |]. by rewrite Hs1, Hr1.
Qed.

(** X24. A started game lasts five rounds. For a playing game at round r,
    from 1 to 5, fewer than 6 - r round resolutions, by a winning word or
    by a timeout, leave it playing, each adding 1 to the round counter;
    the resolution number 6 - r finishes it, and it stays finished at
    round 5 under any further resolutions. *)
Theorem endRounds_length game steps :
  Game.status game = playing →
  1 ≤ Game.round game ≤ 5 →
  (Z.of_nat (length steps) < 6 - Game.round game →
     Game.status (endRounds game steps) = playing
     ∧ Game.round (endRounds game steps)
       = Game.round game + Z.of_nat (length steps))
  ∧ (6 - Game.round game ≤ Z.of_nat (length steps) →
     Game.status (endRounds game steps) = finished
     ∧ Game.round (endRounds game steps) = 5).
Proof.
  revert game. induction steps as [| [[w now] u] steps IH]; intros game Hs Hr.
  - simpl. split; [intros _; split; [done | lia] | lia].
  - unfold endRounds. simpl. fold (endRounds (endRoundGame game w now u) steps).
    destruct (Z.lt_ge_cases (Game.round game) 5) as [H5 | H5].
    + assert (Hs1 : Game.status (endRoundGame game w now u) = playing
                    ∧ Game.round (endRoundGame game w now u) = Game.round game + 1).
      { unfold endRoundGame. by rewrite (proj2 (Z.leb_gt _ _) H5). }
      destruct Hs1 as [Hs1 Hr1].
      destruct (IH (endRoundGame game w now u) Hs1) as [Hlt Hge]; [lia |].
      rewrite Hr1 in Hlt, Hge. split; intros Hn.
      * destruct Hlt as [? ?]; [lia |]. split; [done | lia].
      * apply Hge. lia.
    + assert (Hf : Game.status (endRoundGame game w now u) = finished
                   ∧ Game.round (endRoundGame game w now u) = Game.round game).
      { unfold endRoundGame. by rewrite (proj2 (Z.leb_le _ _) H5). }
      destruct Hf as [Hf Hrf].
      destruct (endRounds_finished (endRoundGame game w now u) steps Hf) as [? Hr'];
        [lia |].
      split; intros Hn; [lia |]. split; [done | lia].
Qed.

(** ** A first round *)

(** X25. From any reachable store: create a game, start it, and let the
    host submit a word whose first letter is the last letter of the starter
    word. The submission is accepted, the game is at round 2 with the
    upper-cased word as current word and a new expiry, and the host's
    player has score 1. *)
Theorem first_round st id hostId isBotGame now u word now' u' :
  reachable st →
  unit_draw u →
  firstChar word = JsString.toUpperCase (JsString.sliceLast (pickWord startWords u)) →
  let st1 := snd (createGame st id hostId isBotGame) in
  let st2 := snd (startGame st1 id now u) in
  let st3 := snd (submitWord st2 id hostId word now' u') in
  In (pickWord startWords u) startWords
  ∧ fst (submitWord st2 id hostId word now' u') = SubmitResult.mk true None
  ∧ games st3 !! id
    = Some (Game.mk id hostId playing 2 (JsString.toUpperCase word)
                    (Some (now' + 5000)) isBotGame)
  ∧ players st3 !! playerIdCounter st
    = Some (Player.mk (playerIdCounter st) id hostId 1 false).
Proof.
  intros Hst Hu Hfirst. cbv zeta.
  set (st1 := snd (createGame st id hostId isBotGame)).
  set (st2 := snd (startGame st1 id now u)).
  set (game2 := Game.mk id hostId playing 1 (pickWord startWords u)
                        (Some (now + 5000)) isBotGame).
  assert (Hr1 : reachable st1)
    by (apply (reachable_call st (CreateGame id hostId isBotGame)); done).
  assert (Hr2 : reachable st2)
    by (apply (reachable_call st1 (StartGame id now u)); done).
  assert (Hg1 : games st1 !! id
                = Some (Game.mk id hostId waiting 0 EmptyString None isBotGame)).
  { unfold st1. rewrite games_createGame. apply lookup_insert_eq. }
  assert (Hs2 : st2 = set_games st1 (<[id := game2]> (games st1))).
  { unfold st2, startGame. by rewrite Hg1. }
  assert (Hg2 : games st2 !! id = Some game2).
  { rewrite Hs2. simpl. apply lookup_insert_eq. }
  assert (Hl2 : playerIdsOf st2 id
                = if isBotGame then [playerIdCounter st; playerIdCounter st + 1]
                  else [playerIdCounter st]).
  { rewrite Hs2. unfold playerIdsOf. simpl. apply createGame_players. }
  assert (Hp2 : players st2 !! playerIdCounter st
                = Some (Player.mk (playerIdCounter st) id hostId 0 false)).
  { rewrite Hs2. simpl. unfold st1. rewrite createGame_eq.
    destruct isBotGame; simpl.
    - rewrite lookup_insert_ne by lia. apply lookup_insert_eq.
    - apply lookup_insert_eq. }
  assert (Hf : findPlayer (players st2) hostId (playerIdsOf st2 id)
               = Some (playerIdCounter st,
                       Player.mk (playerIdCounter st) id hostId 0 false)).
  { rewrite Hl2. destruct isBotGame; simpl; by rewrite Hp2, Z.eqb_refl. }
  split; [by apply pickWord_In |].
  rewrite (submitWord_accepted st2 id hostId word now' u' game2);
    [| by apply reachable_wf | done | done | done].
  cbn [fst snd games players]. split; [done |].
  split; [by rewrite lookup_insert_eq |].
  unfold scoredPlayers. rewrite Hf. by rewrite lookup_insert_eq.
Qed.

(** ** The routes and the client *)

(** X26. Every game route answers with status 200, 201, 400 or 404, and a
    request answered with 400 or 404 leaves the store unchanged.  Creating
    a game cannot fail once its input has parsed: the answer is 201 with
    the code of the new game. *)
Theorem handle_errors st req :
  (Http.status (fst (handle st req)) = 200
   ∨ Http.status (fst (handle st req)) = 201
   ∨ Http.status (fst (handle st req)) = 400
   ∨ Http.status (fst (handle st req)) = 404)
  ∧ (400 ≤ Http.status (fst (handle st req)) → snd (handle st req) = st)
  ∧ (∀ code hostId isBotGame,
       req = PostGame code (Return (hostId, isBotGame)) →
       handle st req
       = (Http.mk 201 (Http.JsonGameId code),
          snd (createGame st code hostId isBotGame))).
Proof.
  split_and!.
  - destruct req as [code [[hostId isBot] | m] | gameId [userId | m] | gameId now uT uB u
                     | gameId now u | gameId [[userId word] | m] now u]; simpl.
    + rewrite createGame_eq. tauto.
    + tauto.
    + destruct (joinGame st gameId userId) as [[p | m] st']; simpl; tauto.
    + tauto.
    + destruct (getGame st gameId now uT uB u) as [[gs |] st']; simpl; tauto.
    + destruct (startGame st gameId now u) as [[[] | m] st']; simpl; tauto.
    + destruct (submitWord st gameId userId word now u) as [r st'].
      destruct (negb (SubmitResult.valid r)); simpl; tauto.
    + tauto.
  - destruct req as [code [[hostId isBot] | m] | gameId [userId | m] | gameId now uT uB u
                     | gameId now u | gameId [[userId word] | m] now u]; simpl.
    + rewrite createGame_eq. simpl. lia.
    + done.
    + unfold joinGame. destruct (games st !! gameId); [| done].
      destruct (negb _); [done |]. destruct (4 <=? _)%nat; [done |].
      destruct (findPlayer _ _ _) as [[existing p] |]; [| simpl; lia].
      destruct (negb _); simpl; lia.
    + done.
    + unfold getGame. destruct (games st !! gameId); [simpl; lia | done].
    + unfold startGame. destruct (games st !! gameId); [simpl; lia | done].
    + unfold submitWord. destruct (games st !! gameId); [| done].
      destruct (negb _); [done |]. destruct (negb _); [done |]. simpl. lia.
    + done.
  - intros code hostId isBotGame ->. simpl. by rewrite createGame_eq.
Qed.

(** X27. The error message of a route never reaches the caller of the
    client hooks: when a route answers with 400 or 404, [handleResponse]
    on that answer throws "Request failed with status 400" or "Request
    failed with status 404", whatever message the route has sent and
    whatever the schema. *)
Theorem handleResponse_hides_message {T : Type} (parse : Http.Body → outcome T)
    st req :
  (400 ≤ Http.status (fst (handle st req)) →
   handleResponse messageOfBody parse (received (fst (handle st req)))
   = Throw (if Http.status (fst (handle st req)) =? 404
            then "Request failed with status 404"
            else "Request failed with status 400"))
  ∧ (Http.status (fst (handle st req)) < 400 →
     handleResponse messageOfBody parse (received (fst (handle st req)))
     = parse (Http.body (fst (handle st req)))).
Proof.
  assert (Hall : Http.status (fst (handle st req)) = 200
                 ∨ Http.status (fst (handle st req)) = 201
                 ∨ Http.status (fst (handle st req)) = 400
                 ∨ Http.status (fst (handle st req)) = 404).
  { destruct req as [code [[hostId isBot] | m] | gameId [userId | m] | gameId now uT uB u
                     | gameId now u | gameId [[userId word] | m] now u]; simpl.
    - rewrite createGame_eq. tauto.
    - tauto.
    - destruct (joinGame st gameId userId) as [[p | m] st']; simpl; tauto.
    - tauto.
    - destruct (getGame st gameId now uT uB u) as [[gs |] st']; simpl; tauto.
    - destruct (startGame st gameId now u) as [[[] | m] st']; simpl; tauto.
    - destruct (submitWord st gameId userId word now u) as [r st'].
      destruct (negb (SubmitResult.valid r)); simpl; tauto.
    - tauto. }
  split.
  2: { intros Hok. unfold handleResponse, received.
       cbn [Fetch.ok Fetch.status Fetch.json].
       destruct Hall as [H | [H | [H | H]]]; rewrite H in *; [done | done | lia | lia]. }
  intros Herr.
  assert (Hst : Http.status (fst (handle st req)) = 400
                ∨ Http.status (fst (handle st req)) = 404).
  { destruct req as [code [[hostId isBot] | m] | gameId [userId | m] | gameId now uT uB u
                     | gameId now u | gameId [[userId word] | m] now u];
      simpl in *.
    - rewrite createGame_eq in *. simpl in Herr. lia.
    - by left.
    - destruct (joinGame st gameId userId) as [[p | m] st']; simpl in *; [lia | by left].
    - by left.
    - destruct (getGame st gameId now uT uB u) as [[gs |] st']; simpl in *;
        [lia | by right].
    - destruct (startGame st gameId now u) as [[[] | m] st']; simpl in *; [lia | by left].
    - destruct (submitWord st gameId userId word now u) as [r st'].
      destruct (negb (SubmitResult.valid r)); simpl in *; [by left | lia].
    - by left. }
  unfold handleResponse, received. cbn [Fetch.ok Fetch.status Fetch.json].
  destruct Hst as [H | H]; rewrite H; reflexivity.
Qed.

(** X28. A game that has just been created can be read back: after the
    create route has answered, the read route answers 200 for the new
    code, with the waiting game at round 0 and its players, the host first
    and the bot second in a bot game, and changes nothing. *)
Theorem created_game_is_readable st code hostId isBotGame now uTimeout uBot u :
  let st1 := snd (handle st (PostGame code (Return (hostId, isBotGame)))) in
  let game := Game.mk code hostId waiting 0 EmptyString None isBotGame in
  let host := Player.mk (playerIdCounter st) code hostId 0 false in
  let bot := Player.mk (playerIdCounter st + 1) code (-1) 0 false in
  handle st1 (GetGameState code now uTimeout uBot u)
  = (Http.mk 200
       (Http.JsonGameState
          (GameState.mk game
             ((host, usernameOf st host)
                :: (if isBotGame then [(bot, "Alice (Bot)")] else [])))),
     st1).
Proof.
  cbv zeta. cbn [handle]. rewrite createGame_eq. cbn [snd].
  set (st1 := if isBotGame then _ else _).
  assert (Hst1 : st1 = snd (createGame st code hostId isBotGame))
    by (by rewrite createGame_eq).
  assert (Hg : games st1 !! code
               = Some (Game.mk code hostId waiting 0 EmptyString None isBotGame)).
  { rewrite Hst1, games_createGame. apply lookup_insert_eq. }
  rewrite (getGame_idle st1 code now uTimeout uBot u _ Hg);
    [| by intros [? _] | by intros [? _]].
  do 3 f_equal. unfold playersWithNames.
  rewrite Hst1, createGame_players. rewrite <- Hst1.
  assert (Hu : ∀ p, usernameOf st1 p = usernameOf st p).
  { intros p. unfold usernameOf. rewrite Hst1, createGame_eq.
    by destruct isBotGame. }
  unfold st1. destruct isBotGame; simpl.
  - rewrite lookup_insert_ne by lia. rewrite !lookup_insert_eq. simpl.
    fold st1. by rewrite Hu.
  - rewrite lookup_insert_eq. simpl. fold st1. by rewrite Hu.
Qed.

(** ** The further properties at the scenarios *)

Lemma reachable_lobbyThree : reachable lobbyThree.
Proof. apply reachable_run; [apply reachable_lobby | draws]. Qed.

Lemma reachable_afterSpace : reachable afterSpace.
Proof. apply reachable_run; [apply reachable_roundOne | draws]. Qed.

Example afterSpace_game :
  games afterSpace !! "ABC123"
  = Some (Game.mk "ABC123" 1 playing 2 " CAT " (Some 6500) true).
Proof. vm_compute. reflexivity. Qed.

Lemma afterSpace_endsInWhiteSpace :
  endsInWhiteSpace (Game.mk "ABC123" 1 playing 2 " CAT " (Some 6500) true).
Proof. exists " CAT", " "%char. split; reflexivity. Qed.

Lemma music_not_endsInWhiteSpace :
  ¬ endsInWhiteSpace (Game.mk "ABC123" 1 playing 1 "MUSIC" (Some 6000) true).
Proof.
  intros (w & c & Hw & Hc). simpl in Hw.
  apply (f_equal JsString.sliceLast) in Hw. rewrite sliceLast_snoc in Hw.
  simpl in Hw. injection Hw as <-. discriminate Hc.
Qed.

Lemma createUser_fresh_witness :
  getUser lobby 3 = None
  ∧ getUser (snd (createUser lobby "cy")) 3 = Some (User.mk 3 "cy").
Proof.
  destruct (createUser_fresh lobby "cy" reachable_lobby)
    as (_ & _ & Hnone & Hsome & _).
  exact (conj Hnone Hsome).
Defined.

Lemma ids_are_sequential_witness :
  is_Some (getUser lobby 2) ∧ is_Some (players lobby !! 2).
Proof.
  destruct (ids_are_sequential lobby reachable_lobby) as (Hu & _ & Hp & _).
  split.
  - apply Hu. change (userIdCounter lobby) with 3. lia.
  - apply Hp. change (playerIdCounter lobby) with 3. lia.
Defined.

Lemma enrollment_partition_witness : NoDup (playerIdsOf lobbyFull "LOBBY1").
Proof.
  destruct (enrollment_partition lobbyFull reachable_lobbyFull) as (Hnd & _).
  exact (Hnd "LOBBY1").
Defined.

Lemma one_player_per_user_witness : (2 : Z) = 2.
Proof.
  apply (one_player_per_user lobbyFull "LOBBY1" 2 2
           (Player.mk 2 "LOBBY1" 2 0 false) (Player.mk 2 "LOBBY1" 2 0 false)).
  - apply reachable_lobbyFull.
  - vm_compute. apply list_elem_of_In. simpl. tauto.
  - vm_compute. apply list_elem_of_In. simpl. tauto.
  - vm_compute. reflexivity.
  - vm_compute. reflexivity.
  - reflexivity.
  - simpl. lia.
Defined.

Lemma hasSubmitted_never_set_witness :
  Player.hasSubmitted (Player.mk 2 "ABC123" (-1) 0 false) = false
  ∧ 0 ≤ Player.score (Player.mk 2 "ABC123" (-1) 0 false).
Proof.
  apply (hasSubmitted_never_set roundOne 2).
  - apply reachable_roundOne.
  - vm_compute. reflexivity.
Defined.

Lemma round_matches_status_witness :
  0 ≤ Game.round (Game.mk "ABC123" 1 finished 5 "STORM" None true) ≤ 5.
Proof.
  destruct (round_matches_status gameOver "ABC123"
              (Game.mk "ABC123" 1 finished 5 "STORM" None true)) as (H & _).
  - apply reachable_gameOver.
  - vm_compute. reflexivity.
  - exact H.
Defined.

Lemma createGame_frame_witness :
  playerIdsOf (snd (createGame lobby "NEWGAM" 2 true)) "LOBBY1"
  = playerIdsOf lobby "LOBBY1".
Proof.
  destruct (createGame_frame lobby "NEWGAM" 2 true reachable_lobby) as (Hk & _).
  apply Hk. discriminate.
Defined.

Lemma joinGame_new_witness :
  fst (joinGame lobby "LOBBY1" 3) = Return (Player.mk 3 "LOBBY1" 3 0 false).
Proof.
  destruct (joinGame_new lobby "LOBBY1" 3
              (Game.mk "LOBBY1" 1 waiting 0 "" None false)) as (H & _).
  - apply reachable_lobby.
  - vm_compute. reflexivity.
  - reflexivity.
  - vm_compute. lia.
  - intros Hen. apply enrolled_findPlayer in Hen. vm_compute in Hen.
    destruct Hen as [x Hx]. discriminate Hx.
  - exact H.
Defined.

Lemma joinGame_twice_witness :
  joinGame (snd (joinGame lobbyThree "LOBBY1" 4)) "LOBBY1" 4
  = (Throw "Game full", snd (joinGame lobbyThree "LOBBY1" 4)).
Proof.
  apply (joinGame_twice lobbyThree "LOBBY1" 4
           (Game.mk "LOBBY1" 1 waiting 0 "" None false)).
  - apply reachable_lobbyThree.
  - vm_compute. reflexivity.
  - reflexivity.
  - vm_compute. lia.
  - intros Hen. apply enrolled_findPlayer in Hen. vm_compute in Hen.
    destruct Hen as [x Hx]. discriminate Hx.
Defined.

Lemma submitWord_case_insensitive_witness :
  submitWord roundOne "ABC123" 1 "Code" 1500 0
  = submitWord roundOne "ABC123" 1 "cODE" 1500 0.
Proof. apply submitWord_case_insensitive; reflexivity. Defined.

Lemma submitWord_chain_witness :
  SubmitResult.valid
    (fst (submitWord (snd (submitWord roundOne "ABC123" 1 " code" 1500 0))
                     "ABC123" 2 "egg" 1600 0)) = true.
Proof.
  apply (submitWord_chain roundOne "ABC123" 1 " code" 1500 0
           (Game.mk "ABC123" 1 playing 1 "MUSIC" (Some 6000) true)).
  - apply reachable_roundOne.
  - vm_compute. reflexivity.
  - reflexivity.
  - vm_compute. reflexivity.
  - simpl. lia.
  - reflexivity.
  - reflexivity.
  - vm_compute. reflexivity.
Defined.

Lemma submitWord_after_whiteSpace_witness :
  submitWord afterSpace "ABC123" 1 "tiger" 2000 0
  = (SubmitResult.mk false (Some "Word must start with ' '"), afterSpace).
Proof.
  apply (submitWord_after_whiteSpace afterSpace "ABC123" 1 "tiger" 2000 0
           (Game.mk "ABC123" 1 playing 2 " CAT " (Some 6500) true)).
  - vm_compute. reflexivity.
  - reflexivity.
  - apply afterSpace_endsInWhiteSpace.
Defined.

Lemma players_are_kept_witness :
  keepsPlayers roundOne (exec roundOne (SubmitWord "ABC123" 1 "cat" 1500 0)).
Proof.
  destruct (players_are_kept roundOne (SubmitWord "ABC123" 1 "cat" 1500 0)
              reachable_roundOne) as [H _].
  exact H.
Defined.

Lemma bot_is_enrolled_witness :
  ∃ pid p, findPlayer (players roundOne) (-1) (playerIdsOf roundOne "ABC123")
           = Some (pid, p) ∧ Player.userId p = -1.
Proof.
  destruct (bot_is_enrolled roundOne "ABC123"
              (Game.mk "ABC123" 1 playing 1 "MUSIC" (Some 6000) true))
    as (pid & p & Hf & _ & _ & Hu & _).
  - apply reachable_roundOne.
  - vm_compute. reflexivity.
  - reflexivity.
  - exists pid, p. exact (conj Hf Hu).
Defined.

Lemma games_are_kept_witness :
  is_Some (games (exec roundOne (GetGame "ABC123" 7000 0 0 0)) !! "ABC123")
  ↔ is_Some (games roundOne !! "ABC123").
Proof.
  destruct (games_are_kept roundOne (GetGame "ABC123" 7000 0 0 0) "ABC123")
    as [H _].
  - apply reachable_roundOne.
  - draws.
  - simpl. tauto.
  - exact H.
Defined.

Lemma processBotMove_moves_witness :
  ∃ pid p game',
    findPlayer (players roundOne) (-1) (playerIdsOf roundOne "ABC123") = Some (pid, p)
    ∧ games (processBotMove roundOne "ABC123" 4000 (1 # 2) 0) !! "ABC123" = Some game'
    ∧ Game.currentWord game' = "CBOTWORD"
    ∧ lastChar game' = "D".
Proof.
  destruct (processBotMove_moves roundOne "ABC123" 4000 (1 # 2) 0
              (Game.mk "ABC123" 1 playing 1 "MUSIC" (Some 6000) true))
    as (pid & p & game' & Hf & Heq & [Hopen _] & Hd).
  - apply reachable_roundOne.
  - vm_compute. reflexivity.
  - reflexivity.
  - reflexivity.
  - exists 6000. split; [reflexivity | lia].
  - reflexivity.
  - apply music_not_endsInWhiteSpace.
  - exists pid, p, game'. split; [exact Hf |]. rewrite Heq. simpl.
    split; [apply lookup_insert_eq |].
    destruct Hopen as (_ & Hw & _); [simpl; lia |].
    split; [exact Hw | apply Hd; simpl; lia].
Defined.

Lemma processBotMove_once_witness :
  processBotMove (processBotMove roundOne "ABC123" 4000 (1 # 2) 0)
                 "ABC123" 4000 (9 # 10) (1 # 3)
  = processBotMove roundOne "ABC123" 4000 (1 # 2) 0.
Proof.
  apply (processBotMove_once roundOne "ABC123" 4000 (1 # 2) 0 (9 # 10) (1 # 3)
           (Game.mk "ABC123" 1 playing 1 "MUSIC" (Some 6000) true)).
  - apply reachable_roundOne.
  - vm_compute. reflexivity.
  - reflexivity.
  - reflexivity.
  - exists 6000. split; [reflexivity | lia].
  - reflexivity.
  - apply music_not_endsInWhiteSpace.
Defined.

Lemma processBotMove_after_whiteSpace_witness :
  processBotMove afterSpace "ABC123" 4500 (1 # 2) 0 = afterSpace.
Proof.
  apply (processBotMove_after_whiteSpace afterSpace "ABC123" 4500 (1 # 2) 0
           (Game.mk "ABC123" 1 playing 2 " CAT " (Some 6500) true)).
  - vm_compute. reflexivity.
  - reflexivity.
  - apply afterSpace_endsInWhiteSpace.
Defined.

Lemma getGame_view_witness :
  ∃ view, fst (getGame roundOne "ABC123" 2000 0 0 0) = Some view
          ∧ length (GameState.players view) = 2%nat.
Proof.
  destruct (getGame_view roundOne "ABC123" 2000 0 0 0
              (Game.mk "ABC123" 1 playing 1 "MUSIC" (Some 6000) true))
    as (view & Hv & _ & Hall).
  - apply reachable_roundOne.
  - split; [discriminate | reflexivity].
  - split; [discriminate | reflexivity].
  - vm_compute. reflexivity.
  - exists view. split; [exact Hv |].
    apply Forall2_length in Hall. rewrite <- Hall. vm_compute. reflexivity.
Defined.

Lemma endRounds_length_witness :
  Game.status
    (endRounds (Game.mk "ABC123" 1 playing 3 "STORM" (Some 30000) true)
               [(Some "MOON", 1000, 0%Q); (None, 7000, 0%Q); (Some "EGG", 8000, 0%Q)])
  = finished.
Proof.
  destruct (endRounds_length
              (Game.mk "ABC123" 1 playing 3 "STORM" (Some 30000) true)
              [(Some "MOON", 1000, 0%Q); (None, 7000, 0%Q); (Some "EGG", 8000, 0%Q)])
    as [_ Hfin].
  - reflexivity.
  - simpl. lia.
  - destruct Hfin as [Hs _]; [simpl; lia | exact Hs].
Defined.

Lemma first_round_witness :
  games (snd (submitWord
                (snd (startGame (snd (createGame newStore "ABC123" 1 false))
                                "ABC123" 1000 (1 # 2)))
                "ABC123" 1 "cat" 1500 0)) !! "ABC123"
  = Some (Game.mk "ABC123" 1 playing 2 "CAT" (Some 6500) false).
Proof.
  destruct (first_round newStore "ABC123" 1 false 1000 (1 # 2) "cat" 1500 0)
    as (_ & _ & Hg & _).
  - apply reachable_new.
  - split; [discriminate | reflexivity].
  - reflexivity.
  - exact Hg.
Defined.
